(** * A doubly linked deque (linkedDeque.js): heap model and verification

    The deque of [src/linkedDeque.js] is a mutable chain of [Node] objects
    reached from a [Deque] object holding [head], [tail] and [_length].
    Nodes live in a store (a finite map from addresses to node records);
    a reference is an address or [null].  Methods are computations in a
    small monad that threads the receiver ([this]) and the store and that
    can throw ([RangeError], or the [TypeError] of a property access on
    [null]) or run out of loop fuel. *)

From Stdlib Require Import ZArith Lia.
From stdpp Require Import base option list gmap strings.

Local Open Scope Z_scope.
Set Warnings "-clear-no-such-hyp".

(** ** Values, nodes and the store *)

Inductive jsval :=
| JUndefined
| JNull
| JBool (b : bool)
| JNum (n : Z)
| JStr (s : string)
| JFunction (name : string).

(** [===] on the values modelled here. *)
Definition strict_eq (a b : jsval) : bool :=
  match a, b with
  | JUndefined, JUndefined => true
  | JNull, JNull => true
  | JBool x, JBool y => Bool.eqb x y
  | JNum x, JNum y => x =? y
  | JStr x, JStr y => String.eqb x y
  | JFunction x, JFunction y => String.eqb x y
  | _, _ => false
  end.

(** A reference to a node: [None] is [null]. *)
Abbreviation ref := (option positive) (only parsing).

(** function Node(value=null) { this.val = value; this.prev = null; this.next = null; } *)
Record Node := mkNode { val : jsval; prev : ref; next : ref }.

Abbreviation heap := (gmap positive Node) (only parsing).

(** The fields of a [Deque] object. *)
Record Deque := mkDeque { head : ref; tail : ref; _length : Z }.

(** ** The method monad *)

Inductive error := RangeError | TypeError.

Inductive outcome (A : Type) :=
| Ret (a : A) (this : Deque) (h : heap)
| Throw (e : error) (this : Deque) (h : heap)
| Diverge.
Arguments Ret {A} a this h.
Arguments Throw {A} e this h.
Arguments Diverge {A}.

Definition M (A : Type) := Deque -> heap -> outcome A.

Definition ret {A} (a : A) : M A := fun this h => Ret a this h.

Definition bind {A B} (m : M A) (k : A -> M B) : M B :=
  fun this h =>
    match m this h with
    | Ret a this' h' => k a this' h'
    | Throw e this' h' => Throw e this' h'
    | Diverge => Diverge
    end.

Definition throw {A} (e : error) : M A := fun this h => Throw e this h.

(** Loop fuel exhausted: the loop is still running. *)
Definition diverge {A} : M A := fun _ _ => Diverge.

Notation "x <- m ;; k" := (bind m (fun x => k))
  (at level 100, m at next level, right associativity).
Notation "m ;;; k" := (bind m (fun _ => k))
  (at level 100, right associativity).

(** this.head, this.tail, this._length and their assignments. *)
Definition get_head : M ref := fun this h => Ret (head this) this h.
Definition get_tail : M ref := fun this h => Ret (tail this) this h.
Definition get_length : M Z := fun this h => Ret (_length this) this h.
Definition set_head (r : ref) : M unit :=
  fun this h => Ret tt (mkDeque r (tail this) (_length this)) h.
Definition set_tail (r : ref) : M unit :=
  fun this h => Ret tt (mkDeque (head this) r (_length this)) h.
Definition set_length (n : Z) : M unit :=
  fun this h => Ret tt (mkDeque (head this) (tail this) n) h.
(** this._length += k *)
Definition add_length (k : Z) : M unit :=
  n <- get_length ;; set_length (n + k).

(** Reading [r.val], [r.prev], [r.next]: a property access on [null] throws
    a TypeError.  (A reference to an address the store does not hold cannot
    arise in JavaScript; it is given the same outcome.) *)
Definition load (r : ref) : M Node :=
  fun this h =>
    match r with
    | None => Throw TypeError this h
    | Some l =>
        match h !! l with
        | Some nd => Ret nd this h
        | None => Throw TypeError this h
        end
    end.

(** Assigning one field of the node [r] refers to. *)
Definition update (r : ref) (f : Node -> Node) : M unit :=
  fun this h =>
    match r with
    | None => Throw TypeError this h
    | Some l =>
        match h !! l with
        | Some nd => Ret tt this (<[l := f nd]> h)
        | None => Throw TypeError this h
        end
    end.

Definition set_val (r : ref) (v : jsval) : M unit :=
  update r (fun nd => mkNode v (prev nd) (next nd)).
Definition set_prev (r : ref) (p : ref) : M unit :=
  update r (fun nd => mkNode (val nd) p (next nd)).
Definition set_next (r : ref) (n : ref) : M unit :=
  update r (fun nd => mkNode (val nd) (prev nd) n).

(** The default of the parameter in [function Node(value=null)]: a parameter
    that is [undefined] (also when the argument is missing) takes its
    default. *)
Definition default_null (value : jsval) : jsval :=
  match value with
  | JUndefined => JNull
  | _ => value
  end.

(** new Node(value) *)
Definition new_Node (value : jsval) : M ref :=
  fun this h =>
    let value := default_null value in
    let l := fresh (dom h) in
    Ret (Some l) this (<[l := mkNode value None None]> h).

(** A method call [obj.m(...)] on another deque object: [m] runs with [this]
    bound to [obj]; the caller's own [this] is untouched. *)
Definition call_on {A} (obj : Deque) (m : M A) : M (A * Deque) :=
  fun this h =>
    match m obj h with
    | Ret a obj' h' => Ret (a, obj') this h'
    | Throw e _ h' => Throw e this h'
    | Diverge => Diverge
    end.

(** for (let i = 0; i < n; i += 1) body *)
Fixpoint for_count (n : nat) (body : M unit) : M unit :=
  match n with
  | O => ret tt
  | S n' => body ;;; for_count n' body
  end.

(** for (let element of array) body(element) *)
Fixpoint for_of (xs : list jsval) (body : jsval -> M unit) : M unit :=
  match xs with
  | [] => ret tt
  | x :: xs' => body x ;;; for_of xs' body
  end.

(** ** The methods of Deque *)

(** Deque.prototype.push *)
Definition push (value : jsval) : M unit :=
  len <- get_length ;;
  if len =? 0 then
    t <- get_tail ;;
    set_val t value ;;;
    add_length 1
  else
    newNode <- new_Node value ;;
    t <- get_tail ;;
    set_prev newNode t ;;;
    t <- get_tail ;;
    set_next t newNode ;;;
    set_tail newNode ;;;
    add_length 1.

(** Deque.prototype.pushLeft *)
Definition pushLeft (value : jsval) : M unit :=
  len <- get_length ;;
  if len =? 0 then
    hd <- get_head ;;
    set_val hd value ;;;
    add_length 1
  else
    newNode <- new_Node value ;;
    hd <- get_head ;;
    set_next newNode hd ;;;
    hd <- get_head ;;
    set_prev hd newNode ;;;
    set_head newNode ;;;
    add_length 1.

(** function Deque(iterable): the iterable is given as the list of the
    elements it produces (the empty list when the argument is missing).
    [new Node()] passes no argument, so [value] is [undefined] there. *)
Definition new_Deque (iterable : list jsval) : M Deque :=
  sentinel <- new_Node JUndefined ;;
  r <- call_on (mkDeque sentinel sentinel 0) (for_of iterable push) ;;
  ret (snd r).

(** Deque.prototype.getHead / getTail *)
Definition getHead : M jsval :=
  hd <- get_head ;; nd <- load hd ;; ret (val nd).
Definition getTail : M jsval :=
  t <- get_tail ;; nd <- load t ;; ret (val nd).

(** The [while (current !== null)] loop of [at]. *)
Fixpoint at_loop (fuel : nat) (pastMid : bool) (indexChange index : Z)
    (current : ref) (currentIndex : Z) : M jsval :=
  match current with
  | None => ret JUndefined
  | Some _ =>
      match fuel with
      | O => diverge
      | S fuel' =>
          if currentIndex =? index then
            nd <- load current ;; ret (val nd)
          else
            nd <- load current ;;
            at_loop fuel' pastMid indexChange index
              (if pastMid then prev nd else next nd)
              (currentIndex + indexChange)
      end
  end.

(** Deque.prototype.at *)
Definition at_ (fuel : nat) (index : Z) : M jsval :=
  len <- get_length ;;
  if (index >=? len) || (index <? 0) then throw RangeError
  else
    len <- get_length ;;
    let pastMid := index >? len / 2 in
    current <- (if pastMid then get_tail else get_head) ;;
    len <- get_length ;;
    let currentIndex := if pastMid then len - 1 else 0 in
    let indexChange := if pastMid then -1 else 1 in
    at_loop fuel pastMid indexChange index current currentIndex.

(** Deque.prototype.pop *)
Definition pop : M jsval :=
  len <- get_length ;;
  if len =? 0 then ret JNull
  else if len =? 1 then
    hd <- get_head ;;
    nd <- load hd ;;
    let lastElement := val nd in
    hd <- get_head ;;
    set_val hd JNull ;;;
    add_length (-1) ;;;
    ret lastElement
  else
    lastElement <- get_tail ;;
    nd <- load lastElement ;;
    set_tail (prev nd) ;;;
    t <- get_tail ;;
    set_next t None ;;;
    add_length (-1) ;;;
    nd <- load lastElement ;;
    ret (val nd).

(** Deque.prototype.popleft *)
Definition popleft : M jsval :=
  len <- get_length ;;
  if len =? 0 then ret JNull
  else if len =? 1 then
    hd <- get_head ;;
    nd <- load hd ;;
    let firstElement := val nd in
    hd <- get_head ;;
    set_val hd JNull ;;;
    add_length (-1) ;;;
    ret firstElement
  else
    firstElement <- get_head ;;
    nd <- load firstElement ;;
    set_head (next nd) ;;;
    hd <- get_head ;;
    set_prev hd None ;;;
    add_length (-1) ;;;
    nd <- load firstElement ;;
    ret (val nd).

(** The [while (current !== null)] loop of [insertAt]; falling out of it
    reaches the trailing [return false]. *)
Fixpoint insertAt_loop (fuel : nat) (pastMid : bool) (indexChange index : Z)
    (newNode : ref) (current : ref) (currentIndex : Z) : M bool :=
  match current with
  | None => ret false
  | Some _ =>
      match fuel with
      | O => diverge
      | S fuel' =>
          if negb (currentIndex =? index) then
            nd <- load current ;;
            insertAt_loop fuel' pastMid indexChange index newNode
              (if pastMid then prev nd else next nd)
              (currentIndex + indexChange)
          else
            nd <- load current ;;
            let prev := prev nd in
            set_next prev newNode ;;;
            set_prev newNode prev ;;;
            set_next newNode current ;;;
            set_prev current newNode ;;;
            add_length 1 ;;;
            ret true
      end
  end.

(** Deque.prototype.insertAt *)
Definition insertAt (fuel : nat) (value : jsval) (index : Z) : M bool :=
  len <- get_length ;;
  if (index <? 0) || (index >=? len) then throw RangeError
  else if index =? 0 then
    pushLeft value ;;;
    ret true
  else
    len <- get_length ;;
    let pastMid := index >? len / 2 in
    newNode <- new_Node value ;;
    current <- (if pastMid then get_tail else get_head) ;;
    len <- get_length ;;
    let currentIndex := if pastMid then len - 1 else 0 in
    let indexChange := if pastMid then -1 else 1 in
    insertAt_loop fuel pastMid indexChange index newNode current currentIndex.

(** The [while (current !== null)] loop of [removeAt]; falling out of it the
    function returns [undefined]. *)
Fixpoint removeAt_loop (fuel : nat) (pastMid : bool) (indexChange index : Z)
    (current : ref) (currentIndex : Z) : M jsval :=
  match current with
  | None => ret JUndefined
  | Some _ =>
      match fuel with
      | O => diverge
      | S fuel' =>
          if negb (currentIndex =? index) then
            nd <- load current ;;
            removeAt_loop fuel' pastMid indexChange index
              (if pastMid then prev nd else next nd)
              (currentIndex + indexChange)
          else
            nd <- load current ;;
            let prev := prev nd in
            let next := next nd in
            set_next prev next ;;;
            set_prev next prev ;;;
            add_length (-1) ;;;
            nd <- load current ;;
            ret (val nd)
      end
  end.

(** Deque.prototype.removeAt *)
Definition removeAt (fuel : nat) (index : Z) : M jsval :=
  len <- get_length ;;
  if (index <? 0) || (index >=? len) then throw RangeError
  else if index =? 0 then popleft
  else
    len <- get_length ;;
    if index =? len - 1 then pop
    else
      len <- get_length ;;
      let pastMid := index >? len / 2 in
      current <- (if pastMid then get_tail else get_head) ;;
      len <- get_length ;;
      let currentIndex := if pastMid then len - 1 else 0 in
      let indexChange := if pastMid then -1 else 1 in
      removeAt_loop fuel pastMid indexChange index current currentIndex.

(** The [while (current !== null)] loop of [reverse]. *)
Fixpoint reverse_loop (fuel : nat) (current : ref) : M unit :=
  match current with
  | None => ret tt
  | Some _ =>
      match fuel with
      | O => diverge
      | S fuel' =>
          nd <- load current ;;
          let prev := prev nd in
          let next := next nd in
          set_next current prev ;;;
          set_prev current next ;;;
          reverse_loop fuel' next
      end
  end.

(** Deque.prototype.reverse *)
Definition reverse (fuel : nat) : M unit :=
  hd <- get_head ;;
  t <- get_tail ;;
  set_head t ;;;
  set_tail hd ;;;
  current <- get_tail ;;
  reverse_loop fuel current.

(** A JavaScript number that is an integer or NaN: [steps % 0] is NaN. *)
Inductive num := Fin (z : Z) | NaN.

(** [a % b] on integers: the remainder takes the sign of the dividend, and
    the remainder by zero is NaN. *)
Definition js_rem (a b : Z) : num :=
  if b =? 0 then NaN else Fin (Z.rem a b).
Definition num_abs (x : num) : num :=
  match x with Fin z => Fin (Z.abs z) | NaN => NaN end.
(** [x > y]: false as soon as one side is NaN. *)
Definition num_gt (x y : num) : bool :=
  match x, y with Fin a, Fin b => a >? b | _, _ => false end.
Definition num_add (x : num) (k : Z) : num :=
  match x with Fin z => Fin (z + k) | NaN => NaN end.
Definition num_sub (x : num) (k : Z) : num :=
  match x with Fin z => Fin (z - k) | NaN => NaN end.

(** Deque.prototype.optimizeSteps *)
Definition optimizeSteps (steps : Z) : M num :=
  len <- get_length ;;
  let steps := js_rem steps len in
  len <- get_length ;;
  if num_gt (num_abs steps) (Fin (len / 2)) then
    if num_gt steps (Fin 0) then
      len <- get_length ;; ret (num_sub steps len)
    else
      len <- get_length ;; ret (num_add steps len)
  else ret steps.

(** The number of times [for (let i = 0; i < bound; i += 1)] runs its body:
    none when [bound] is NaN or not positive. *)
Definition trips (bound : num) : nat :=
  match bound with Fin b => Z.to_nat b | NaN => O end.

(** Deque.prototype.rotate; a missing argument is [steps = 1]. *)
Definition rotate (steps : Z) : M unit :=
  if steps =? 0 then ret tt
  else
    steps <- optimizeSteps steps ;;
    if num_gt steps (Fin 0) then
      for_count (trips steps) (v <- pop ;; pushLeft v)
    else
      for_count (trips (num_abs steps)) (v <- popleft ;; push v).

(** The [while (current !== null)] loop of [copy]. *)
Fixpoint copy_loop (fuel : nat) (newDeque : Deque) (current : ref) : M Deque :=
  match current with
  | None => ret newDeque
  | Some _ =>
      match fuel with
      | O => diverge
      | S fuel' =>
          nd <- load current ;;
          r <- call_on newDeque (push (val nd)) ;;
          nd <- load current ;;
          copy_loop fuel' (snd r) (next nd)
      end
  end.

(** Deque.prototype.copy *)
Definition copy (fuel : nat) : M Deque :=
  len <- get_length ;;
  if len =? 0 then new_Deque []
  else
    newDeque <- new_Deque [] ;;
    current <- get_head ;;
    copy_loop fuel newDeque current.

(** Deque.prototype.clear *)
Definition clear : M unit :=
  hd <- get_head ;;
  set_val hd JNull ;;;
  hd <- get_head ;;
  set_next hd None ;;;
  hd <- get_head ;;
  set_tail hd ;;;
  set_length 0.

(** The [while (current !== null)] loop of [toArray]. *)
Fixpoint toArray_loop (fuel : nat) (current : ref) (array : list jsval)
    : M (list jsval) :=
  match current with
  | None => ret array
  | Some _ =>
      match fuel with
      | O => diverge
      | S fuel' =>
          nd <- load current ;;
          toArray_loop fuel' (next nd) (array ++ [val nd])
      end
  end.

(** Deque.prototype.toArray *)
Definition toArray (fuel : nat) : M (list jsval) :=
  len <- get_length ;;
  if len =? 0 then ret []
  else
    current <- get_head ;;
    toArray_loop fuel current [].

(** The traversal that the loops of [at], [insertAt] and [removeAt] share:
    from [current] at position [currentIndex], move by [indexChange] until
    position [index]; the result is the node reached, or [null] when the
    chain ends first.  Used to state what those loops do. *)
Fixpoint locate (fuel : nat) (pastMid : bool) (indexChange index : Z)
    (current : ref) (currentIndex : Z) : M ref :=
  match current with
  | None => ret None
  | Some _ =>
      match fuel with
      | O => diverge
      | S fuel' =>
          if currentIndex =? index then ret current
          else
            nd <- load current ;;
            locate fuel' pastMid indexChange index
              (if pastMid then prev nd else next nd)
              (currentIndex + indexChange)
      end
  end.

(** ** Deque.prototype[Symbol.iterator] *)

(** The iterator is the object literal [{next: function() {...}}]; its only
    own property is [next], and [current] is a variable of the enclosing
    call, not a property.  Inside [next], called as [iterator.next()], [this]
    is that object, so [this._length] reads a property it does not have. *)
Definition iterator_object : list (string * jsval) :=
  [("next"%string, JFunction "next")].

(** [obj.key]: the value of an own property, [undefined] when there is none
    (the prototype of an object literal has no [_length] either). *)
Fixpoint get_property (obj : list (string * jsval)) (key : string) : jsval :=
  match obj with
  | [] => JUndefined
  | (k, v) :: obj' => if String.eqb k key then v else get_property obj' key
  end.

Record IterResult := mkIterResult { value : jsval; done : bool }.

(** [Symbol.iterator]: [let current = this.head]. *)
Definition iterator : M ref := get_head.

(** One call of the iterator's [next]; the updated [current] is returned
    beside the result object. *)
Definition iterator_next (current : ref) : M (IterResult * ref) :=
  if bool_decide (current = None)
     || strict_eq (get_property iterator_object "_length") (JNum 0)
  then ret (mkIterResult JUndefined true, current)
  else
    nd <- load current ;;
    let result := val nd in
    ret (mkIterResult result false, next nd).

(** Consuming an iterator as [for (... of deque)] and [[...deque]] do: [next]
    is called until it reports [done], and the values before that are
    collected. *)
Fixpoint drain (fuel : nat) (current : ref) (acc : list jsval)
    : M (list jsval) :=
  r <- iterator_next current ;;
  if done (fst r) then ret acc
  else
    match fuel with
    | O => diverge
    | S fuel' => drain fuel' (snd r) (acc ++ [value (fst r)])
    end.

(** [[...deque]] *)
Definition iterate (fuel : nat) : M (list jsval) :=
  current <- iterator ;;
  drain fuel current [].

(** ** The representation invariant *)

(** A chain is described by its cells, head to tail: the address of each node
    with the value it holds. *)
Abbreviation cells := (list (positive * jsval)) (only parsing).

Definition first_ref (cs : cells) (dflt : ref) : ref :=
  match cs with
  | [] => dflt
  | c :: _ => Some (fst c)
  end.

Fixpoint last_ref (cs : cells) (dflt : ref) : ref :=
  match cs with
  | [] => dflt
  | c :: cs' => last_ref cs' (Some (fst c))
  end.

(** [dlseg h p cs q]: the nodes of [cs] are linked in both directions in [h];
    the first one's [prev] is [p] and the last one's [next] is [q]. *)
Fixpoint dlseg (h : heap) (p : ref) (cs : cells) (q : ref) : Prop :=
  match cs with
  | [] => True
  | c :: cs' =>
      h !! fst c = Some (mkNode (snd c) p (first_ref cs' q))
      /\ dlseg h (Some (fst c)) cs' q
  end.

(** [Rep d h cs vs]: in the store [h] the deque [d] is the chain [cs] and
    holds the elements [vs].  An empty deque keeps one node, holding [null]. *)
Definition Rep (d : Deque) (h : heap) (cs : cells) (vs : list jsval) : Prop :=
  NoDup cs.*1
  /\ dlseg h None cs None
  /\ head d = first_ref cs None
  /\ tail d = last_ref cs None
  /\ _length d = Z.of_nat (length vs)
  /\ ((vs = [] /\ exists s, cs = [(s, JNull)]) \/ (vs <> [] /\ vs = cs.*2)).

(** What a method running on the chain [cs] may do to the store: nodes
    outside the chain are left alone, and the chain only grows by nodes that
    were not allocated before. *)
Definition evolves (cs : cells) (h : heap) (cs' : cells) (h' : heap) : Prop :=
  (forall l, l ∉ cs.*1 -> is_Some (h !! l) -> h' !! l = h !! l)
  /\ (forall l, l ∈ cs'.*1 -> l ∈ cs.*1 \/ h !! l = None).

(** The executable form of the invariant: the chain is read off the store by
    following [next] from [head], and checked. *)
Fixpoint collect (h : heap) (n : nat) (r : ref) : cells :=
  match n, r with
  | S n', Some l =>
      match h !! l with
      | Some nd => (l, val nd) :: collect h n' (next nd)
      | None => []
      end
  | _, _ => []
  end.

#[global] Instance jsval_eq_dec : EqDecision jsval.
Proof. solve_decision. Defined.
#[global] Instance Node_eq_dec : EqDecision Node.
Proof. solve_decision. Defined.

Fixpoint dlsegb (h : heap) (p : ref) (cs : cells) (q : ref) : bool :=
  match cs with
  | [] => true
  | c :: cs' =>
      bool_decide (h !! fst c = Some (mkNode (snd c) p (first_ref cs' q)))
      && dlsegb h (Some (fst c)) cs' q
  end.

Definition chain_of (d : Deque) (h : heap) : cells :=
  collect h (Z.to_nat (Z.max 1 (_length d))) (head d).

Definition elements_of (d : Deque) (h : heap) : list jsval :=
  if _length d =? 0 then [] else (chain_of d h).*2.

Definition wf (d : Deque) (h : heap) : bool :=
  let cs := chain_of d h in
  bool_decide (NoDup cs.*1)
  && dlsegb h None cs None
  && bool_decide (head d = first_ref cs None)
  && bool_decide (tail d = last_ref cs None)
  && (if _length d =? 0 then bool_decide (cs.*2 = [JNull])
      else (0 <? _length d) && (_length d =? Z.of_nat (length cs))).

(** ** What the methods compute on the sequence of elements *)

(** The value that [push(value)] and [pushLeft(value)] leave in a deque whose
    elements were [vs]: an empty deque takes it as it is, in the node it
    keeps; otherwise it goes through [new Node]. *)
Definition stored (vs : list jsval) (value : jsval) : jsval :=
  match vs with
  | [] => value
  | _ :: _ => default_null value
  end.

(** The elements after [push] of each of [xs] in turn. *)
Fixpoint push_all (vs xs : list jsval) : list jsval :=
  match xs with
  | [] => vs
  | x :: xs' => push_all (vs ++ [stored vs x]) xs'
  end.

(** The elements of a deque filled from empty by [push] of each of [xs]: the
    first is written into the kept node, the others pass through [new Node]. *)
Definition pushed (xs : list jsval) : list jsval :=
  match xs with
  | [] => []
  | x :: xs' => x :: (default_null <$> xs')
  end.

(** [became a b]: the element [b] is [a], or [a] was [undefined] and [b] is
    the [null] that [new Node] stores for it. *)
Definition became (a b : jsval) : Prop :=
  b = a \/ (a = JUndefined /\ b = JNull).

(** The elements after one [pushLeft(pop())]. *)
Definition rotr1 (vs : list jsval) : list jsval :=
  match rev vs with
  | [] => []
  | v :: r => stored r v :: rev r
  end.

(** The elements after one [push(popleft())]. *)
Definition rotl1 (vs : list jsval) : list jsval :=
  match vs with
  | [] => []
  | v :: ws => ws ++ [stored ws v]
  end.

(** The number [optimizeSteps(steps)] returns on a deque of length [len]. *)
Definition opt_steps (steps len : Z) : num :=
  let steps := js_rem steps len in
  if num_gt (num_abs steps) (Fin (len / 2)) then
    if num_gt steps (Fin 0) then num_sub steps len else num_add steps len
  else steps.

(** The elements after [rotate(steps)]. *)
Definition rotate_model (steps : Z) (vs : list jsval) : list jsval :=
  if steps =? 0 then vs
  else
    let s := opt_steps steps (Z.of_nat (length vs)) in
    if num_gt s (Fin 0) then Nat.iter (trips s) rotr1 vs
    else Nat.iter (trips (num_abs s)) rotl1 vs.

(** Cyclic shifts of a list: the last element moved to the front, the first
    moved to the back, and the shift by [steps] places that [rotate(steps)]
    performs when the elements come back as they were. *)
Definition cycr1 (vs : list jsval) : list jsval :=
  match rev vs with
  | [] => []
  | v :: r => v :: rev r
  end.

Definition cycl1 (vs : list jsval) : list jsval :=
  match vs with
  | [] => []
  | v :: ws => ws ++ [v]
  end.

Definition cyc_model (steps : Z) (vs : list jsval) : list jsval :=
  if steps =? 0 then vs
  else
    let s := opt_steps steps (Z.of_nat (length vs)) in
    if num_gt s (Fin 0) then Nat.iter (trips s) cycr1 vs
    else Nat.iter (trips (num_abs s)) cycl1 vs.

(** ** Programs over one deque *)

(** The public operations, as a caller invokes them. *)
Inductive op :=
| OpPush (v : jsval)
| OpPushLeft (v : jsval)
| OpPop
| OpPopleft
| OpGetHead
| OpGetTail
| OpAt (index : Z)
| OpInsertAt (v : jsval) (index : Z)
| OpRemoveAt (index : Z)
| OpReverse
| OpRotate (steps : Z)
| OpCopy
| OpClear
| OpToArray
| OpIterate
| OpNew (iterable : list jsval).

(** What a call evaluates to. *)
Inductive result :=
| RUndefined
| RVal (v : jsval)
| RBool (b : bool)
| RArray (vs : list jsval)
| RDeque (c : Deque).

Definition run_op (fuel : nat) (o : op) : M result :=
  match o with
  | OpPush v => push v ;;; ret RUndefined
  | OpPushLeft v => pushLeft v ;;; ret RUndefined
  | OpPop => v <- pop ;; ret (RVal v)
  | OpPopleft => v <- popleft ;; ret (RVal v)
  | OpGetHead => v <- getHead ;; ret (RVal v)
  | OpGetTail => v <- getTail ;; ret (RVal v)
  | OpAt i => v <- at_ fuel i ;; ret (RVal v)
  | OpInsertAt v i => b <- insertAt fuel v i ;; ret (RBool b)
  | OpRemoveAt i => v <- removeAt fuel i ;; ret (RVal v)
  | OpReverse => reverse fuel ;;; ret RUndefined
  | OpRotate k => rotate k ;;; ret RUndefined
  | OpCopy => c <- copy fuel ;; ret (RDeque c)
  | OpClear => clear ;;; ret RUndefined
  | OpToArray => vs <- toArray fuel ;; ret (RArray vs)
  | OpIterate => vs <- iterate fuel ;; ret (RArray vs)
  | OpNew xs => c <- new_Deque xs ;; ret (RDeque c)
  end.

(** A caller running operations one after the other on the same deque,
    catching whatever one of them throws and going on. *)
Fixpoint run_ops (fuel : nat) (os : list op) : M unit :=
  match os with
  | [] => ret tt
  | o :: os' =>
      fun this h =>
        match run_op fuel o this h with
        | Ret _ this' h' => run_ops fuel os' this' h'
        | Throw _ this' h' => run_ops fuel os' this' h'
        | Diverge => Diverge
        end
  end.

(** ** The invariants of the data model, as the specification words them *)

Definition node_at (h : heap) (r : ref) : option Node :=
  match r with
  | Some l => h !! l
  | None => None
  end.

(** The nodes visited from [r] by following the link [sel] ([next] or
    [prev]), at most [n] of them. *)
Fixpoint follow (sel : Node -> ref) (h : heap) (n : nat) (r : ref)
    : list positive :=
  match n, r with
  | S n', Some l =>
      match h !! l with
      | Some nd => l :: follow sel h n' (sel nd)
      | None => [l]
      end
  | _, _ => []
  end.

Definition structural_invariants (d : Deque) (h : heap) : Prop :=
  0 <= _length d
  /\ (_length d = 0 ->
      head d = tail d
      /\ exists nd, node_at h (head d) = Some nd /\ val nd = JNull)
  /\ (_length d = 1 ->
      head d = tail d
      /\ exists nd, node_at h (head d) = Some nd
                    /\ prev nd = None /\ next nd = None)
  /\ (2 <= _length d ->
      let n := Z.to_nat (_length d) in
      let ns := follow next h (S n) (head d) in
      (exists nd, node_at h (head d) = Some nd /\ prev nd = None)
      /\ (exists nd, node_at h (tail d) = Some nd /\ next nd = None)
      /\ length ns = n
      /\ last ns = tail d
      /\ follow prev h (S n) (tail d) = rev ns
      /\ last (rev ns) = head d).

(** ** A concrete deque *)

(** The store and the fields of [new Deque([1, 2, 3])] built in an empty
    store. *)
Definition sample_heap : gmap positive Node :=
  <[3%positive := mkNode (JNum 3) (Some 2%positive) None]>
    (<[2%positive := mkNode (JNum 2) (Some 1%positive) (Some 3%positive)]>
       (<[1%positive := mkNode (JNum 1) None (Some 2%positive)]> ∅)).

Definition sample_deque : Deque :=
  mkDeque (Some 1%positive) (Some 3%positive) 3.

(** The store and the fields of the deque [1, undefined, 2, 3] that
    [d = new Deque([undefined]); d.pushLeft(1); d.push(2); d.push(3)] builds
    in an empty store: the first element is written into the node the empty
    deque keeps, so it stays [undefined]. *)
Definition undef_heap : gmap positive Node :=
  <[4%positive := mkNode (JNum 3) (Some 3%positive) None]>
    (<[3%positive := mkNode (JNum 2) (Some 1%positive) (Some 4%positive)]>
       (<[2%positive := mkNode (JNum 1) None (Some 1%positive)]>
          (<[1%positive := mkNode JUndefined (Some 2%positive) (Some 3%positive)]>
             ∅))).

Definition undef_deque : Deque :=
  mkDeque (Some 2%positive) (Some 4%positive) 4.


(** ** Deque.prototype.toString *)

(** The [while (current !== null)] loop of [toString].  [to_str] is the
    conversion to a string that the template literal applies to [value]. *)
Fixpoint toString_loop (to_str : jsval -> string) (fuel : nat)
    (current : ref) (stringArray : list string) : M (list string) :=
  match current with
  | None => ret stringArray
  | Some _ =>
      match fuel with
      | O => diverge
      | S fuel' =>
          nd <- load current ;;
          let value := val nd in
          let stringSegment := ("( " +:+ to_str value +:+ " )")%string in
          nd <- load current ;;
          toString_loop to_str fuel' (next nd)
            ((stringArray ++ [stringSegment]) ++ [" -> "%string])
      end
  end.

(** Deque.prototype.toString; [join("")] concatenates. *)
Definition toString (to_str : jsval -> string) (fuel : nat) : M string :=
  len <- get_length ;;
  if len =? 0 then ret "null"%string
  else
    current <- get_head ;;
    stringArray <- toString_loop to_str fuel current [] ;;
    ret (String.concat "" (stringArray ++ ["null"%string])).

(** The rendering of a sequence of elements: [( v1 ) -> ( v2 ) -> null]. *)
Fixpoint render (to_str : jsval -> string) (vs : list jsval) : string :=
  match vs with
  | [] => "null"%string
  | v :: vs' => ("( " +:+ to_str v +:+ " )" +:+ " -> " +:+ render to_str vs')%string
  end.

(** ** The second implementation in the file *)

(** The file holds a second [Deque], over the same [Node] and the same three
    fields.  Its [append], [prepend], [getHead], [getTail], [pop], [popleft]
    and [toString] have the bodies of [push], [pushLeft], [getHead],
    [getTail], [pop], [popleft] and [toString] above; its [at], [insertAt]
    and [removeAt] always scan from the head and report a bad index by their
    result; [contains] and [find] exist only there. *)
Module Permissive.

(** Deque.prototype.append *)
Definition append (value : jsval) : M unit :=
  len <- get_length ;;
  if len =? 0 then
    t <- get_tail ;;
    set_val t value ;;;
    add_length 1
  else
    newNode <- new_Node value ;;
    t <- get_tail ;;
    set_prev newNode t ;;;
    t <- get_tail ;;
    set_next t newNode ;;;
    set_tail newNode ;;;
    add_length 1.

(** Deque.prototype.prepend *)
Definition prepend (value : jsval) : M unit :=
  len <- get_length ;;
  if len =? 0 then
    hd <- get_head ;;
    set_val hd value ;;;
    add_length 1
  else
    newNode <- new_Node value ;;
    hd <- get_head ;;
    set_next newNode hd ;;;
    hd <- get_head ;;
    set_prev hd newNode ;;;
    set_head newNode ;;;
    add_length 1.

(** The loop of [at]. *)
Fixpoint at_loop (fuel : nat) (index : Z) (current : ref) (currentIndex : Z)
    : M jsval :=
  match current with
  | None => ret JUndefined
  | Some _ =>
      match fuel with
      | O => diverge
      | S fuel' =>
          if currentIndex =? index then
            nd <- load current ;; ret (val nd)
          else
            nd <- load current ;;
            at_loop fuel' index (next nd) (currentIndex + 1)
      end
  end.

(** Deque.prototype.at *)
Definition at_ (fuel : nat) (index : Z) : M jsval :=
  len <- get_length ;;
  if (index >=? len) || (index <? 0) then ret JNull
  else
    current <- get_head ;;
    at_loop fuel index current 0.

(** The loop of [contains]; after it, [return false]. *)
Fixpoint contains_loop (fuel : nat) (value : jsval) (current : ref) : M bool :=
  match current with
  | None => ret false
  | Some _ =>
      match fuel with
      | O => diverge
      | S fuel' =>
          nd <- load current ;;
          let currentValue := val nd in
          if strict_eq currentValue value then ret true
          else
            nd <- load current ;;
            contains_loop fuel' value (next nd)
      end
  end.

(** Deque.prototype.contains *)
Definition contains (fuel : nat) (value : jsval) : M bool :=
  len <- get_length ;;
  if len =? 0 then ret false
  else
    current <- get_head ;;
    contains_loop fuel value current.

(** The loop of [find]; after it, [return null]. *)
Fixpoint find_loop (fuel : nat) (value : jsval) (index : Z) (current : ref)
    : M jsval :=
  match current with
  | None => ret JNull
  | Some _ =>
      match fuel with
      | O => diverge
      | S fuel' =>
          nd <- load current ;;
          let currentValue := val nd in
          if strict_eq currentValue value then ret (JNum index)
          else
            nd <- load current ;;
            find_loop fuel' value (index + 1) (next nd)
      end
  end.

(** Deque.prototype.find *)
Definition find (fuel : nat) (value : jsval) : M jsval :=
  len <- get_length ;;
  if len =? 0 then ret JNull
  else
    current <- get_head ;;
    find_loop fuel value 0 current.

(** The loop of [insertAt]; falling out of it the function returns
    [undefined]. *)
Fixpoint insertAt_loop (fuel : nat) (index : Z) (newNode : ref)
    (current : ref) (currentIndex : Z) : M jsval :=
  match current with
  | None => ret JUndefined
  | Some _ =>
      match fuel with
      | O => diverge
      | S fuel' =>
          if negb (currentIndex =? index) then
            nd <- load current ;;
            insertAt_loop fuel' index newNode (next nd) (currentIndex + 1)
          else
            nd <- load current ;;
            let prev := prev nd in
            set_next prev newNode ;;;
            set_prev newNode prev ;;;
            set_next newNode current ;;;
            set_prev current newNode ;;;
            add_length 1 ;;;
            ret (JBool true)
      end
  end.

(** Deque.prototype.insertAt *)
Definition insertAt (fuel : nat) (value : jsval) (index : Z) : M jsval :=
  len <- get_length ;;
  if (index <? 0) || (index >=? len) then ret (JBool false)
  else if index =? 0 then
    prepend value ;;;
    ret (JBool true)
  else
    newNode <- new_Node value ;;
    current <- get_head ;;
    insertAt_loop fuel index newNode current 0.

(** The loop of [removeAt]. *)
Fixpoint removeAt_loop (fuel : nat) (index : Z) (current : ref)
    (currentIndex : Z) : M jsval :=
  match current with
  | None => ret JUndefined
  | Some _ =>
      match fuel with
      | O => diverge
      | S fuel' =>
          if negb (currentIndex =? index) then
            nd <- load current ;;
            removeAt_loop fuel' index (next nd) (currentIndex + 1)
          else
            nd <- load current ;;
            let prev := prev nd in
            let next := next nd in
            set_next prev next ;;;
            set_prev next prev ;;;
            add_length (-1) ;;;
            nd <- load current ;;
            ret (val nd)
      end
  end.

(** Deque.prototype.removeAt *)
Definition removeAt (fuel : nat) (index : Z) : M jsval :=
  len <- get_length ;;
  if (index <? 0) || (index >=? len) then ret JNull
  else if index =? 0 then popleft
  else
    len <- get_length ;;
    if index =? len - 1 then pop
    else
      current <- get_head ;;
      removeAt_loop fuel index current 0.

End Permissive.

(** * Verification *)

(** ** Linked segments *)

Section chains.
Implicit Types (h : heap) (cs : cells) (p q : ref) (l : positive).

Lemma first_ref_app cs1 cs2 q :
  first_ref (cs1 ++ cs2) q = first_ref cs1 (first_ref cs2 q).
Proof. by destruct cs1. Qed.

Lemma last_ref_app cs1 cs2 p :
  last_ref (cs1 ++ cs2) p = last_ref cs2 (last_ref cs1 p).
Proof. revert p. induction cs1 as [|c cs1 IH]; intros p; simpl; [done|apply IH]. Qed.

Lemma dlseg_app h p cs1 cs2 q :
  dlseg h p (cs1 ++ cs2) q <->
  dlseg h p cs1 (first_ref cs2 q) /\ dlseg h (last_ref cs1 p) cs2 q.
Proof.
  revert p. induction cs1 as [|c cs1 IH]; intros p; simpl.
  - tauto.
  - rewrite first_ref_app, IH. tauto.
Qed.

(** A segment only depends on the nodes it names. *)
Lemma dlseg_agree h h' p cs q :
  (forall l, l ∈ cs.*1 -> h' !! l = h !! l) ->
  dlseg h p cs q -> dlseg h' p cs q.
Proof.
  revert p. induction cs as [|c cs IH]; intros p Hag; simpl; [done|].
  intros [Hc Hrest]. split.
  - rewrite Hag; [done|]. simpl. set_solver.
  - apply IH; [|done]. intros l Hl. apply Hag. simpl. set_solver.
Qed.

Lemma dlseg_alloc h p cs q l : dlseg h p cs q -> l ∈ cs.*1 -> is_Some (h !! l).
Proof.
  revert p. induction cs as [|c cs IH]; intros p; simpl.
  - intros _ Hl. set_solver.
  - intros [Hc Hrest] Hl. apply elem_of_cons in Hl as [->|Hl]; [eauto|].
    by eapply IH.
Qed.

Lemma fresh_lookup h : h !! fresh (dom h) = None.
Proof. apply not_elem_of_dom, is_fresh. Qed.

Lemma dlseg_fresh h p cs q : dlseg h p cs q -> fresh (dom h) ∉ cs.*1.
Proof.
  intros Hseg Hl. apply (dlseg_alloc _ _ _ _ _ Hseg) in Hl.
  rewrite fresh_lookup in Hl. by destruct Hl.
Qed.

Lemma snoc_inv {A} (xs : list A) : xs <> [] -> exists ys y, xs = ys ++ [y].
Proof.
  induction xs as [|x xs IH] using rev_ind; [done|]. intros _. eauto.
Qed.

End chains.

(** ** Reasoning about method runs *)

Ltac mred :=
  cbv beta iota zeta delta
    [bind ret throw diverge get_length get_tail get_head set_val set_prev
     set_next update load new_Node add_length set_length set_tail set_head
     call_on];
  cbn [head tail _length val prev next fst snd].

Ltac list_norm :=
  repeat first
    [ rewrite fmap_app | rewrite fmap_cons | rewrite fmap_nil
    | rewrite first_ref_app | rewrite last_ref_app | progress csimpl ].
Ltac list_norm_in H :=
  repeat first
    [ rewrite fmap_app in H | rewrite fmap_cons in H | rewrite fmap_nil in H
    | rewrite first_ref_app in H | rewrite last_ref_app in H
    | progress csimpl in H ].

Ltac nodup_in H :=
  list_norm_in H;
  repeat first [ rewrite NoDup_app in H | rewrite NoDup_cons in H
               | rewrite NoDup_nil in H ].
Ltac nodup_hyps :=
  repeat match goal with
         | H : context [NoDup _] |- _ => progress nodup_in H
         end.
Ltac keep_sets :=
  repeat match goal with
         | H : dlseg _ _ _ _ |- _ => clear H
         | H : _ !! _ = _ |- _ => clear H
         | H : head _ = _ |- _ => clear H
         | H : tail _ = _ |- _ => clear H
         | H : _length _ = _ |- _ => clear H
         | H : (_ <= _)%nat |- _ => clear H
         | H : (_ < _)%nat |- _ => clear H
         | H : locate _ _ _ _ _ _ _ _ = _ |- _ => clear H
         | H : _ = fresh _ |- _ => clear H
         | x := _ |- _ => clearbody x
         end.

Ltac len_norm :=
  repeat first
    [ rewrite length_app | rewrite length_fmap | rewrite length_cons
    | rewrite length_nil ].
Ltac len_hyps :=
  repeat match goal with
         | H : context [length (_ ++ _)] |- _ => rewrite length_app in H
         | H : context [length (_ <$> _)] |- _ => rewrite length_fmap in H
         | H : context [length (_ :: _)] |- _ => rewrite length_cons in H
         | H : context [length []] |- _ => rewrite length_nil in H
         end.
Ltac len_solver := len_hyps; len_norm; simpl; lia.

(* membership in [A.*1] is kept abstract *)
Ltac hide_fst :=
  repeat match goal with
         | |- context [fmap fst ?A] =>
             let k := fresh "k" in set (k := fmap fst A) in *; clearbody k
         | H : context [fmap fst ?A] |- _ =>
             let k := fresh "k" in set (k := fmap fst A) in *; clearbody k
         end.
Ltac sets_solver :=
  keep_sets; nodup_hyps; list_norm; hide_fst; destruct_and?;
  repeat first [ rewrite NoDup_app | rewrite NoDup_cons | rewrite NoDup_nil ];
  split_and?; first [ done | set_solver ].
Ltac ne_solver := intros ?; simplify_eq; sets_solver.
Ltac solve_nodup := sets_solver.

(* lookups in a store built by inserts, at an address known to differ *)
Ltac lookup_ne :=
  repeat (rewrite lookup_insert_ne by ne_solver);
  try done.
Ltac lookup_here :=
  repeat first
    [ rewrite lookup_insert_eq
    | rewrite lookup_insert_ne by ne_solver ].

Ltac mrun :=
  repeat first
    [ progress mred
    | rewrite lookup_insert_eq
    | rewrite lookup_insert_ne by ne_solver
    | match goal with
      | H : ?l = fresh (dom ?h) |- context [fresh (dom ?h)] => rewrite <- H
      | H : ?h !! ?l = Some _ |- context [?h !! ?l] => rewrite H
      | H : head ?d = _ |- context [head ?d] => rewrite H
      | H : tail ?d = _ |- context [tail ?d] => rewrite H
      | H : _length ?d = _ |- context [_length ?d] => rewrite H
      end ].

Lemma evolves_refl cs h : evolves cs h cs h.
Proof. split; auto. Qed.

Lemma Rep_nil_inv d h cs : Rep d h cs [] ->
  exists s, cs = [(s, JNull)] /\ head d = Some s /\ tail d = Some s
    /\ _length d = 0 /\ h !! s = Some (mkNode JNull None None).
Proof.
  intros (Hnd & Hseg & Hhd & Htl & Hlen & [[_ [s ->]]|[? _]]); [|done].
  exists s. csimpl in *. intuition.
Qed.

Lemma Rep_cons_inv d h cs v vs : Rep d h cs (v :: vs) ->
  NoDup cs.*1 /\ dlseg h None cs None /\ head d = first_ref cs None
  /\ tail d = last_ref cs None /\ _length d = Z.of_nat (length (v :: vs))
  /\ cs.*2 = v :: vs.
Proof.
  intros (Hnd & Hseg & Hhd & Htl & Hlen & [[? _]|[_ Hvs]]); [done|].
  by split_and!.
Qed.

Lemma Rep_intro d h cs vs :
  NoDup cs.*1 -> dlseg h None cs None -> head d = first_ref cs None ->
  tail d = last_ref cs None -> _length d = Z.of_nat (length vs) ->
  vs <> [] -> vs = cs.*2 -> Rep d h cs vs.
Proof. intros. unfold Rep. split_and!; try done. by right. Qed.

Ltac evolves_tac Hfl :=
  split;
  [ let x := fresh "x" in let Hx := fresh "Hx" in let Hs := fresh "Hs" in
    intros x Hx Hs; list_norm_in Hx;
    repeat (rewrite lookup_insert_ne;
            [|first [ congruence
                    | intros ->; rewrite Hfl in Hs; by destruct Hs
                    | nodup_hyps; set_solver ]]);
    done
  | let x := fresh "x" in let Hx := fresh "Hx" in
    intros x Hx; list_norm_in Hx; list_norm;
    set_solver ].

(** ** Operations at the two ends *)

Lemma push_spec v d h cs vs :
  Rep d h cs vs ->
  exists d' h' cs',
    push v d h = Ret tt d' h' /\ Rep d' h' cs' (vs ++ [stored vs v])
    /\ evolves cs h cs' h'.
Proof.
  intros HR. pose proof (fresh_lookup h) as Hfl. destruct vs as [|v0 vs0].
  - apply Rep_nil_inv in HR as (s & -> & Hhd & Htl & Hlen & Hs).
    unfold push. mrun. simpl. mrun.
    eexists _, _, [(s, v)]. split; [reflexivity|]. split.
    + apply Rep_intro; csimpl.
      * solve_nodup.
      * lookup_here. done.
      * done.
      * done.
      * lia.
      * done.
      * done.
    + evolves_tac Hfl.
  - apply Rep_cons_inv in HR as (Hnd & Hseg & Hhd & Htl & Hlen & Hvs).
    destruct (snoc_inv cs) as (A & [t vt] & ->); [by intros ->|].
    pose proof (dlseg_fresh _ _ _ _ Hseg) as Hfr.
    remember (fresh (dom h)) as l eqn:Heql.
    list_norm_in Htl.
    apply dlseg_app in Hseg as [HA (Ht & _)]. csimpl in HA; csimpl in Ht.
    nodup_in Hnd. list_norm_in Hfr.
    assert (t <> l) by set_solver.
    unfold push. mrun.
    rewrite (proj2 (Z.eqb_neq _ 0)) by (simpl; lia).
    mrun. clear Heql.
    eexists _, _, ((A ++ [(t, vt)]) ++ [(l, default_null v)]).
    split; [reflexivity|]. split.
    + apply Rep_intro; csimpl.
      * solve_nodup.
      * rewrite !dlseg_app. list_norm. split_and!; try done.
        -- eapply dlseg_agree; [|exact HA]. intros x Hx. lookup_ne.
        -- lookup_here. done.
        -- lookup_here. done.
      * by list_norm.
      * by list_norm.
      * rewrite length_app. simpl. lia.
      * done.
      * list_norm. list_norm_in Hvs. by rewrite Hvs.
    + evolves_tac Hfl.
Qed.

Lemma Rep_intro_nil d h s :
  h !! s = Some (mkNode JNull None None) -> head d = Some s ->
  tail d = Some s -> _length d = 0 -> Rep d h [(s, JNull)] [].
Proof.
  intros Hs Hhd Htl Hlen. unfold Rep. simpl. split_and!; try done.
  - solve_nodup.
  - left. eauto.
Qed.

Lemma eqb_false_of (a b : Z) : a <> b -> (a =? b) = false.
Proof. apply Z.eqb_neq. Qed.

Lemma pushLeft_spec v d h cs vs :
  Rep d h cs vs ->
  exists d' h' cs',
    pushLeft v d h = Ret tt d' h' /\ Rep d' h' cs' (stored vs v :: vs)
    /\ evolves cs h cs' h'.
Proof.
  intros HR. pose proof (fresh_lookup h) as Hfl. destruct vs as [|v0 vs0].
  - apply Rep_nil_inv in HR as (s & -> & Hhd & Htl & Hlen & Hs).
    unfold pushLeft. mrun. simpl. mrun.
    eexists _, _, [(s, v)]. split; [reflexivity|]. split.
    + apply Rep_intro; csimpl.
      * solve_nodup.
      * lookup_here. done.
      * done.
      * done.
      * lia.
      * done.
      * done.
    + evolves_tac Hfl.
  - apply Rep_cons_inv in HR as (Hnd & Hseg & Hhd & Htl & Hlen & Hvs).
    destruct cs as [|[c vc] B]; [done|].
    pose proof (dlseg_fresh _ _ _ _ Hseg) as Hfr.
    remember (fresh (dom h)) as l eqn:Heql.
    csimpl in Hhd; csimpl in Hseg. destruct Hseg as [Hc HB].
    nodup_in Hnd. list_norm_in Hfr.
    assert (c <> l) by set_solver.
    unfold pushLeft. mrun.
    rewrite eqb_false_of by (simpl; lia).
    mrun. clear Heql.
    eexists _, _, ((l, default_null v) :: (c, vc) :: B).
    split; [reflexivity|]. split.
    + apply Rep_intro; csimpl.
      * solve_nodup.
      * split_and!.
        -- lookup_here. done.
        -- lookup_here. done.
        -- eapply dlseg_agree; [|exact HB]. intros x Hx. lookup_ne.
      * done.
      * done.
      * lia.
      * done.
      * csimpl in Hvs. by rewrite Hvs.
    + evolves_tac Hfl.
Qed.

Lemma pop_nil d h cs : Rep d h cs [] -> pop d h = Ret JNull d h.
Proof.
  intros HR. apply Rep_nil_inv in HR as (s & -> & Hhd & Htl & Hlen & Hs).
  unfold pop. mrun. done.
Qed.

Lemma popleft_nil d h cs : Rep d h cs [] -> popleft d h = Ret JNull d h.
Proof.
  intros HR. apply Rep_nil_inv in HR as (s & -> & Hhd & Htl & Hlen & Hs).
  unfold popleft. mrun. done.
Qed.

Lemma pop_snoc v d h cs vs :
  Rep d h cs (vs ++ [v]) ->
  exists d' h' cs',
    pop d h = Ret v d' h' /\ Rep d' h' cs' vs /\ evolves cs h cs' h'.
Proof.
  intros HR. pose proof (fresh_lookup h) as Hfl.
  destruct (vs ++ [v]) as [|w ws] eqn:Evs; [by destruct vs|].
  apply Rep_cons_inv in HR as (Hnd & Hseg & Hhd & Htl & Hlen & Hvs).
  rewrite <- Evs in Hvs, Hlen. clear Evs w ws.
  apply fmap_app_inv in Hvs as (A & T & HA & HT & ->).
  destruct T as [|[t vt] [|? ?]]; simplify_eq/=.
  rewrite length_app, length_fmap in Hlen. csimpl in Hlen.
  list_norm_in Htl. apply dlseg_app in Hseg as [HsA (Ht & _)].
  csimpl in HsA; csimpl in Ht. nodup_in Hnd.
  destruct A as [|c0 A0] using rev_ind.
  - csimpl in *. unfold pop. mrun. simpl. mrun.
    eexists _, _, [(t, JNull)]. split; [reflexivity|]. split.
    + apply Rep_intro_nil; csimpl; try done. lookup_here. done.
    + evolves_tac Hfl.
  - clear IHA0. destruct c0 as [a va].
    rewrite length_app in Hlen. csimpl in Hlen.
    list_norm_in Hhd. list_norm_in Ht.
    apply dlseg_app in HsA as [HsA0 (Ha & _)]. csimpl in HsA0; csimpl in Ha.
    nodup_hyps. assert (a <> t) by set_solver.
    unfold pop. mrun.
    rewrite !eqb_false_of by lia. mrun.
    eexists _, _, (A0 ++ [(a, va)]). split; [reflexivity|]. split.
    + apply Rep_intro; csimpl.
      * solve_nodup.
      * rewrite dlseg_app. list_norm. split_and!; try done.
        -- eapply dlseg_agree; [|exact HsA0]. intros x Hx. lookup_ne.
        -- lookup_here. done.
      * by list_norm.
      * by list_norm.
      * rewrite length_fmap, length_app. simpl. lia.
      * rewrite fmap_app. simpl. by destruct (A0.*2).
      * done.
    + evolves_tac Hfl.
Qed.

Lemma popleft_cons v d h cs vs :
  Rep d h cs (v :: vs) ->
  exists d' h' cs',
    popleft d h = Ret v d' h' /\ Rep d' h' cs' vs /\ evolves cs h cs' h'.
Proof.
  intros HR. pose proof (fresh_lookup h) as Hfl.
  apply Rep_cons_inv in HR as (Hnd & Hseg & Hhd & Htl & Hlen & Hvs).
  destruct cs as [|[c vc] B]; simplify_eq/=.
  destruct Hseg as [Hc HB]. nodup_in Hnd.
  rewrite length_fmap in Hlen.
  destruct B as [|[b vb] B0].
  - csimpl in *. unfold popleft. mrun. simpl. mrun.
    eexists _, _, [(c, JNull)]. split; [reflexivity|]. split.
    + apply Rep_intro_nil; csimpl; try done. lookup_here. done.
    + evolves_tac Hfl.
  - csimpl in *. destruct HB as [Hb HB0].
    assert (b <> c) by set_solver.
    unfold popleft. mrun.
    rewrite !eqb_false_of by lia. mrun.
    eexists _, _, ((b, vb) :: B0). split; [reflexivity|]. split.
    + apply Rep_intro; csimpl.
      * solve_nodup.
      * split.
        -- lookup_here. done.
        -- eapply dlseg_agree; [|exact HB0]. intros x Hx. lookup_ne.
      * done.
      * done.
      * rewrite length_fmap. lia.
      * done.
      * done.
    + evolves_tac Hfl.
Qed.

Lemma getHead_spec d h cs vs :
  Rep d h cs vs -> getHead d h = Ret (hd JNull vs) d h.
Proof.
  intros HR. destruct vs as [|v vs].
  - apply Rep_nil_inv in HR as (s & -> & Hhd & Htl & Hlen & Hs).
    unfold getHead. mrun. done.
  - apply Rep_cons_inv in HR as (Hnd & Hseg & Hhd & Htl & Hlen & Hvs).
    destruct cs as [|[c vc] B]; simplify_eq/=. destruct Hseg as [Hc _].
    unfold getHead. mrun. done.
Qed.

Lemma getTail_spec d h cs vs :
  Rep d h cs vs -> getTail d h = Ret (List.last vs JNull) d h.
Proof.
  intros HR. destruct vs as [|v vs].
  - apply Rep_nil_inv in HR as (s & -> & Hhd & Htl & Hlen & Hs).
    unfold getTail. mrun. done.
  - apply Rep_cons_inv in HR as (Hnd & Hseg & Hhd & Htl & Hlen & Hvs).
    destruct (snoc_inv cs) as (A & [t vt] & ->); [by intros ->|].
    list_norm_in Htl. list_norm_in Hvs. rewrite <- Hvs.
    apply dlseg_app in Hseg as [_ (Ht & _)]. csimpl in Ht.
    unfold getTail. mrun. by rewrite last_last.
Qed.

Lemma clear_spec d h cs vs :
  Rep d h cs vs ->
  exists d' h' cs',
    clear d h = Ret tt d' h' /\ Rep d' h' cs' [] /\ evolves cs h cs' h'.
Proof.
  intros HR. pose proof (fresh_lookup h) as Hfl.
  assert (exists c vc B, cs = (c, vc) :: B /\ NoDup cs.*1
            /\ dlseg h None cs None /\ head d = Some c) as
    (c & vc & B & -> & Hnd & Hseg & Hhd).
  { destruct vs.
    - apply Rep_nil_inv in HR as (s & -> & Hhd & Htl & Hlen & Hs).
      exists s, JNull, []. simpl. split_and!; try done. solve_nodup.
    - apply Rep_cons_inv in HR as (Hnd & Hseg & Hhd & Htl & Hlen & Hvs).
      destruct cs as [|[c vc] B]; simplify_eq/=. eauto 10. }
  csimpl in Hseg. destruct Hseg as [Hc _].
  unfold clear. mrun.
  eexists _, _, [(c, JNull)]. split; [reflexivity|]. split.
  - apply Rep_intro_nil; csimpl; try done. lookup_here. done.
  - evolves_tac Hfl.
Qed.

(** ** Operations by index *)

Lemma locate_fwd h p A c B q fuel k d :
  dlseg h p (A ++ c :: B) q -> (length A < fuel)%nat ->
  locate fuel false 1 (k + Z.of_nat (length A))
    (first_ref (A ++ c :: B) q) k d h = Ret (Some (fst c)) d h.
Proof.
  revert p fuel k. induction A as [|a A IH]; intros p fuel k Hseg Hf.
  - destruct fuel as [|fuel]; [csimpl in Hf; lia|]. simpl.
    rewrite Z.add_0_r, Z.eqb_refl. done.
  - destruct fuel as [|fuel]; [csimpl in Hf; lia|].
    csimpl in Hseg. destruct Hseg as [Ha Hseg].
    simpl. rewrite eqb_false_of by lia. mrun.
    replace (k + Z.of_nat (S (length A)))
      with (k + 1 + Z.of_nat (length A)) by lia.
    eapply IH; [done|]. csimpl in Hf. lia.
Qed.

Lemma locate_bwd h p A c B q fuel idx d :
  dlseg h p (A ++ c :: B) q -> (length B < fuel)%nat ->
  locate fuel true (-1) idx
    (last_ref (A ++ c :: B) p) (idx + Z.of_nat (length B)) d h
  = Ret (Some (fst c)) d h.
Proof.
  revert q fuel. induction B as [|b B IH] using rev_ind; intros q fuel Hseg Hf.
  - destruct fuel as [|fuel]; [csimpl in Hf; lia|].
    rewrite last_ref_app. simpl. rewrite Z.add_0_r, Z.eqb_refl. done.
  - destruct fuel as [|fuel]; [csimpl in Hf; lia|].
    rewrite length_app in Hf |- *. simpl in Hf |- *.
    replace (A ++ c :: B ++ [b]) with ((A ++ c :: B) ++ [b]) in *
      by by rewrite <- app_assoc.
    apply dlseg_app in Hseg as [Hseg (Hb & _)]. csimpl in Hseg; csimpl in Hb.
    rewrite last_ref_app. simpl. rewrite eqb_false_of by lia. mrun.
    replace (idx + Z.of_nat (length B + 1) + -1)
      with (idx + Z.of_nat (length B)) by lia.
    eapply IH; [done|]. lia.
Qed.

Lemma bind_assoc {A B C} (m : M A) (k : A -> M B) (k' : B -> M C) d h :
  (r <- (x <- m ;; k x) ;; k' r) d h = (x <- m ;; r <- k x ;; k' r) d h.
Proof. unfold bind. by destruct (m d h). Qed.

Lemma at_loop_locate fuel pm ic idx cur ci d h :
  at_loop fuel pm ic idx cur ci d h =
  (r <- locate fuel pm ic idx cur ci ;;
   match r with
   | None => ret JUndefined
   | Some _ => nd <- load r ;; ret (val nd)
   end) d h.
Proof.
  revert cur ci d h. induction fuel as [|fuel IH]; intros cur ci d h.
  - by destruct cur.
  - destruct cur as [c|]; [|done]. simpl.
    destruct (ci =? idx); [done|].
    unfold bind at 1. rewrite bind_assoc. unfold bind at 1.
    destruct (load (Some c) d h); first [done | apply IH].
Qed.

Lemma in_range_1 (i n : Z) : 0 <= i < n -> (i >=? n) || (i <? 0) = false.
Proof. intros. apply orb_false_intro; lia. Qed.
Lemma in_range_2 (i n : Z) : 0 <= i < n -> (i <? 0) || (i >=? n) = false.
Proof. intros. apply orb_false_intro; lia. Qed.

(** The traversal of [at], [insertAt] and [removeAt] reaches the node at
    [index], from whichever end it starts. *)
Lemma locate_index h A c B fuel d pm :
  dlseg h None (A ++ c :: B) None ->
  (length (A ++ c :: B) <= fuel)%nat ->
  locate fuel pm (if pm then -1 else 1) (Z.of_nat (length A))
    (if pm then last_ref (A ++ c :: B) None else first_ref (A ++ c :: B) None)
    (if pm then Z.of_nat (length (A ++ c :: B)) - 1 else 0) d h
  = Ret (Some (fst c)) d h.
Proof.
  intros Hseg Hf. rewrite length_app in Hf |- *. simpl in Hf |- *.
  destruct pm.
  - replace (Z.of_nat (length A + S (length B)) - 1)
      with (Z.of_nat (length A) + Z.of_nat (length B)) by lia.
    eapply locate_bwd; [done|lia].
  - replace (Z.of_nat (length A)) with (0 + Z.of_nat (length A)) at 1 by lia.
    eapply locate_fwd; [done|lia].
Qed.

Lemma Rep_split d h cs xs y ys :
  Rep d h cs (xs ++ y :: ys) ->
  exists A c B,
    cs = A ++ (c, y) :: B /\ A.*2 = xs /\ B.*2 = ys /\ NoDup cs.*1
    /\ dlseg h None cs None /\ head d = first_ref cs None
    /\ tail d = last_ref cs None
    /\ _length d = Z.of_nat (length cs)
    /\ length A = length xs.
Proof.
  intros HR. destruct (xs ++ y :: ys) as [|w ws] eqn:Evs; [by destruct xs|].
  apply Rep_cons_inv in HR as (Hnd & Hseg & Hhd & Htl & Hlen & Hvs).
  rewrite <- Evs in Hvs, Hlen. clear Evs w ws.
  pose proof Hvs as Hvs'.
  apply fmap_app_inv in Hvs as (A & T & HA & HT & ->).
  destruct T as [|[c vc] B]; simplify_eq/=.
  exists A, c, B. split_and!; try done.
  - rewrite <- Hvs', length_fmap in Hlen. done.
  - by rewrite length_fmap.
Qed.

Lemma at_spec fuel d h cs xs y ys :
  Rep d h cs (xs ++ y :: ys) ->
  (length (xs ++ y :: ys) <= fuel)%nat ->
  at_ fuel (Z.of_nat (length xs)) d h = Ret y d h.
Proof.
  intros HR Hf.
  apply Rep_split in HR
    as (A & c & B & -> & HA & HB & Hnd & Hseg & Hhd & Htl & Hlen & HlA).
  assert (length (xs ++ y :: ys) = length (A ++ (c, y) :: B)) as Hl.
  { rewrite <- HA, <- HB, !length_app; simpl. by rewrite !length_fmap. }
  rewrite Hl in Hf. rewrite <- HlA.
  pose proof Hseg as Hseg'. apply dlseg_app in Hseg' as [_ (Hc & _)].
  csimpl in Hc.
  unfold at_. mrun.
  rewrite in_range_1 by (rewrite length_app; simpl; lia).
  mrun. set (pm := _ >? _).
  pose proof (locate_index h A (c, y) B fuel d pm Hseg Hf) as HL.
  destruct pm; cbv iota in HL; mrun; rewrite at_loop_locate;
    unfold bind at 1; rewrite HL; mrun; done.
Qed.

Lemma insertAt_loop_locate fuel pm ic idx newNode cur ci d h :
  insertAt_loop fuel pm ic idx newNode cur ci d h =
  (r <- locate fuel pm ic idx cur ci ;;
   match r with
   | None => ret false
   | Some _ =>
       nd <- load r ;;
       set_next (prev nd) newNode ;;;
       set_prev newNode (prev nd) ;;;
       set_next newNode r ;;;
       set_prev r newNode ;;;
       add_length 1 ;;;
       ret true
   end) d h.
Proof.
  revert cur ci d h. induction fuel as [|fuel IH]; intros cur ci d h.
  - by destruct cur.
  - destruct cur as [c|]; [|done]. simpl.
    destruct (ci =? idx); [done|]. simpl.
    unfold bind at 1. rewrite bind_assoc. unfold bind at 1.
    destruct (load (Some c) d h); first [done | apply IH].
Qed.

Lemma removeAt_loop_locate fuel pm ic idx cur ci d h :
  removeAt_loop fuel pm ic idx cur ci d h =
  (r <- locate fuel pm ic idx cur ci ;;
   match r with
   | None => ret JUndefined
   | Some _ =>
       nd <- load r ;;
       set_next (prev nd) (next nd) ;;;
       set_prev (next nd) (prev nd) ;;;
       add_length (-1) ;;;
       nd <- load r ;;
       ret (val nd)
   end) d h.
Proof.
  revert cur ci d h. induction fuel as [|fuel IH]; intros cur ci d h.
  - by destruct cur.
  - destruct cur as [c|]; [|done]. simpl.
    destruct (ci =? idx); [done|]. simpl.
    unfold bind at 1. rewrite bind_assoc. unfold bind at 1.
    destruct (load (Some c) d h); first [done | apply IH].
Qed.

Lemma insertAt_spec fuel v d h cs xs y ys :
  Rep d h cs (xs ++ y :: ys) ->
  (length (xs ++ y :: ys) <= fuel)%nat ->
  exists d' h' cs',
    insertAt fuel v (Z.of_nat (length xs)) d h = Ret true d' h'
    /\ Rep d' h' cs' (xs ++ default_null v :: y :: ys)
    /\ evolves cs h cs' h'.
Proof.
  intros HR Hf. destruct xs as [|x xs _] using rev_ind.
  - destruct (pushLeft_spec v _ _ _ _ HR) as (d' & h' & cs' & Hp & HR' & Hev).
    apply Rep_cons_inv in HR as (_ & _ & _ & _ & Hlen & _).
    unfold insertAt. mrun. rewrite in_range_2 by (csimpl in *; lia).
    simpl. mrun. rewrite Hp.
    eexists _, _, _. split_and!; [reflexivity|exact HR'|exact Hev].
  - pose proof (fresh_lookup h) as Hfl.
    rewrite <- app_assoc in HR. csimpl in HR.
    apply Rep_split in HR
      as (A & a & B0 & -> & HA & HB & Hnd & Hseg & Hhd & Htl & Hlen & HlA).
    destruct B0 as [|[c vc] B]; simplify_eq/=.
    replace (A ++ (a, x) :: (c, y) :: B)
      with ((A ++ [(a, x)]) ++ (c, y) :: B) in * by by rewrite <- app_assoc.
    replace (length ((A.*2 ++ [x]) ++ y :: B.*2))
      with (length ((A ++ [(a, x)]) ++ (c, y) :: B)) in Hf.
    2:{ rewrite !length_app; simpl. by rewrite !length_fmap. }
    replace (length (A.*2 ++ [x])) with (length (A ++ [(a, x)])).
    2:{ rewrite !length_app; simpl. by rewrite !length_fmap. }
    pose proof (dlseg_fresh _ _ _ _ Hseg) as Hfr.
    remember (fresh (dom h)) as l eqn:Heql.
    set (h1 := <[l := mkNode (default_null v) None None]> h).
    assert (dlseg h1 None ((A ++ [(a, x)]) ++ (c, y) :: B) None) as Hseg1.
    { eapply dlseg_agree; [|exact Hseg]. intros z Hz. unfold h1.
      rewrite lookup_insert_ne; [done|]. by intros ->. }
    rewrite !dlseg_app in Hseg. csimpl in Hseg.
    destruct Hseg as ((HsA & Ha & _) & Hc & HsB).
    list_norm_in Ha. list_norm_in Hc. list_norm_in HsB.
    nodup_hyps. list_norm_in Hfr.
    assert (a <> l /\ c <> l /\ a <> c) as (? & ? & ?) by set_solver.
    unfold insertAt. mrun.
    rewrite in_range_2 by (rewrite !length_app; simpl; lia).
    rewrite eqb_false_of by (rewrite !length_app; simpl; lia).
    mrun. fold h1. set (pm := _ >? _).
    pose proof (locate_index h1 _ _ _ fuel d pm Hseg1 Hf) as HL.
    assert (h1 !! c = Some (mkNode y (Some a) (first_ref B None))) as Hc1.
    { unfold h1. by rewrite lookup_insert_ne. }
    assert (h1 !! a = Some (mkNode x (last_ref A None) (Some c))) as Ha1.
    { unfold h1. by rewrite lookup_insert_ne. }
    assert (h1 !! l = Some (mkNode (default_null v) None None)) as Hl1.
    { unfold h1. by rewrite lookup_insert_eq. }
    assert (exists d' h' cs',
      (r <- (ret (Some c) : M (option positive)) ;;
       match r with
       | None => ret false
       | Some _ =>
         nd <- load r ;;
         set_next (prev nd) (Some l) ;;;
         set_prev (Some l) (prev nd) ;;;
         set_next (Some l) r ;;;
         set_prev r (Some l) ;;;
         add_length 1 ;;;
         ret true
       end) d h1 = Ret true d' h'
      /\ Rep d' h' cs' ((A.*2 ++ [x]) ++ default_null v :: y :: B.*2)
      /\ evolves ((A ++ [(a, x)]) ++ (c, y) :: B) h cs' h') as Hgoal.
    { clear HL. mrun.
      eexists _, _, ((A ++ [(a, x)]) ++ (l, default_null v) :: (c, y) :: B).
      split; [reflexivity|]. split.
      - apply Rep_intro; csimpl.
        + clear Heql. solve_nodup.
        + rewrite !dlseg_app. list_norm. split_and!; try done.
          * eapply dlseg_agree; [|exact HsA]. intros z Hz. unfold h1.
            clear Heql. lookup_ne.
          * unfold h1. lookup_here. done.
          * unfold h1. lookup_here. done.
          * lookup_here. done.
          * eapply dlseg_agree; [|exact HsB]. intros z Hz. unfold h1.
            clear Heql. lookup_ne.
        + by list_norm.
        + by list_norm.
        + len_solver.
        + by destruct (A.*2).
        + by list_norm.
      - unfold h1. clear Heql. evolves_tac Hfl. }
    destruct Hgoal as (d' & h' & cs' & Hrun & HR' & Hev).
    exists d', h', cs'. split; [|by split].
    destruct pm; cbv iota in HL; mrun; rewrite insertAt_loop_locate;
      unfold bind at 1; rewrite HL; exact Hrun.
Qed.

Lemma Rep_length d h cs vs : Rep d h cs vs -> _length d = Z.of_nat (length vs).
Proof. by intros (_ & _ & _ & _ & Hlen & _). Qed.

Lemma removeAt_spec fuel d h cs xs y ys :
  Rep d h cs (xs ++ y :: ys) ->
  (length (xs ++ y :: ys) <= fuel)%nat ->
  exists d' h' cs',
    removeAt fuel (Z.of_nat (length xs)) d h = Ret y d' h'
    /\ Rep d' h' cs' (xs ++ ys) /\ evolves cs h cs' h'.
Proof.
  intros HR Hf. destruct xs as [|x xs _] using rev_ind.
  - destruct (popleft_cons _ _ _ _ _ HR) as (d' & h' & cs' & Hp & HR' & Hev).
    apply Rep_cons_inv in HR as (_ & _ & _ & _ & Hlen & _).
    unfold removeAt. mrun. rewrite in_range_2 by (csimpl in *; lia).
    simpl. rewrite Hp.
    eexists _, _, _. split_and!; [reflexivity|exact HR'|exact Hev].
  - destruct ys as [|z ys].
    { pose proof HR as HR0.
      destruct (pop_snoc _ _ _ _ _ HR) as (d' & h' & cs' & Hp & HR' & Hev).
      pose proof (Rep_length _ _ _ _ HR) as Hlen.
      unfold removeAt. mrun. rewrite in_range_2 by len_solver.
      rewrite eqb_false_of by len_solver. mrun.
      rewrite (proj2 (Z.eqb_eq _ _)) by len_solver.
      rewrite Hp. rewrite app_nil_r.
      eexists _, _, _. split_and!; [reflexivity|exact HR'|exact Hev]. }
    pose proof (fresh_lookup h) as Hfl.
    apply Rep_split in HR
      as (A & c & B0 & -> & HA & HB & Hnd & Hseg & Hhd & Htl & Hlen & HlA).
    destruct B0 as [|[b vb] B]; simplify_eq/=.
    destruct (snoc_inv A) as (A0 & [a va] & ->).
    { intros ->. by destruct xs. }
    list_norm_in HA. apply app_inj_tail in HA as [HA0 ->].
    replace (length ((xs ++ [x]) ++ y :: z :: B.*2))
      with (length ((A0 ++ [(a, x)]) ++ (c, y) :: (b, z) :: B)) in Hf
      by (subst xs; len_solver).
    rewrite <- HlA.
    pose proof (locate_index h _ _ _ fuel d
                  (Z.of_nat (length (A0 ++ [(a, x)])) >?
                   Z.of_nat (length ((A0 ++ [(a, x)]) ++ (c, y) :: (b, z) :: B))
                     `div` 2) Hseg Hf) as HL.
    rewrite !dlseg_app in Hseg. csimpl in Hseg.
    destruct Hseg as ((HsA & Ha & _) & Hc & Hb & HsB).
    list_norm_in Ha. list_norm_in Hc. list_norm_in Hb. list_norm_in HsB.
    nodup_hyps.
    assert (a <> c /\ a <> b /\ c <> b) as (? & ? & ?) by sets_solver.
    assert (exists d' h' cs',
      (r <- (ret (Some c) : M (option positive)) ;;
       match r with
       | None => ret JUndefined
       | Some _ =>
         nd <- load r ;;
         set_next (prev nd) (next nd) ;;;
         set_prev (next nd) (prev nd) ;;;
         add_length (-1) ;;;
         nd <- load r ;;
         ret (val nd)
       end) d h = Ret y d' h'
      /\ Rep d' h' cs' ((xs ++ [x]) ++ z :: B.*2)
      /\ evolves ((A0 ++ [(a, x)]) ++ (c, y) :: (b, z) :: B) h cs' h')
      as (d' & h' & cs' & Hrun & HR' & Hev).
    { clear HL. mrun.
      eexists _, _, ((A0 ++ [(a, x)]) ++ (b, z) :: B).
      split; [reflexivity|]. split.
      - apply Rep_intro; csimpl.
        + solve_nodup.
        + rewrite !dlseg_app. list_norm. split_and!; try done.
          * eapply dlseg_agree; [|exact HsA]. intros w Hw. lookup_ne.
          * lookup_here. done.
          * lookup_here. done.
          * eapply dlseg_agree; [|exact HsB]. intros w Hw. lookup_ne.
        + by list_norm.
        + by list_norm.
        + subst xs. len_solver.
        + by destruct xs.
        + list_norm. by rewrite HA0.
      - evolves_tac Hfl. }
    exists d', h', cs'. split; [|by split].
    unfold removeAt. mrun.
    rewrite in_range_2 by len_solver.
    rewrite eqb_false_of by len_solver. mrun.
    rewrite eqb_false_of by len_solver. mrun.
    set (pm := _ >? _) in *.
    destruct pm; cbv iota in HL; mrun; rewrite removeAt_loop_locate;
      unfold bind at 1; rewrite HL; exact Hrun.
Qed.

(** ** Reading the elements out *)

Lemma toArray_loop_spec h p cs fuel acc d :
  dlseg h p cs None -> (length cs <= fuel)%nat ->
  toArray_loop fuel (first_ref cs None) acc d h = Ret (acc ++ cs.*2) d h.
Proof.
  revert p fuel acc. induction cs as [|[c vc] cs IH]; intros p fuel acc Hseg Hf.
  - destruct fuel; simpl; by rewrite app_nil_r.
  - destruct fuel as [|fuel]; [simpl in Hf; lia|].
    destruct Hseg as [Hc Hseg]. simpl in Hc, Hseg, Hf. simpl. mrun.
    rewrite (IH (Some c)); [|done|lia].
    by rewrite <- app_assoc.
Qed.

Lemma toArray_spec fuel d h cs vs :
  Rep d h cs vs -> (length vs <= fuel)%nat -> toArray fuel d h = Ret vs d h.
Proof.
  intros HR Hf. destruct vs as [|v vs].
  - apply Rep_nil_inv in HR as (s & -> & Hhd & Htl & Hlen & Hs).
    unfold toArray. mrun. done.
  - apply Rep_cons_inv in HR as (Hnd & Hseg & Hhd & Htl & Hlen & Hvs).
    unfold toArray. mrun. rewrite eqb_false_of by (simpl; lia). mrun.
    erewrite toArray_loop_spec; [|done|].
    + by rewrite Hvs.
    + rewrite <- Hvs, length_fmap in Hf. done.
Qed.

Lemma iterator_next_some c nd d h :
  h !! c = Some nd ->
  iterator_next (Some c) d h = Ret (mkIterResult (val nd) false, next nd) d h.
Proof. intros Hc. unfold iterator_next. simpl. mrun. done. Qed.

Lemma drain_spec h p cs fuel acc d :
  dlseg h p cs None -> (length cs <= fuel)%nat ->
  drain fuel (first_ref cs None) acc d h = Ret (acc ++ cs.*2) d h.
Proof.
  revert p fuel acc. induction cs as [|[c vc] cs IH]; intros p fuel acc Hseg Hf.
  - destruct fuel; simpl; by rewrite app_nil_r.
  - destruct fuel as [|fuel]; [simpl in Hf; lia|].
    destruct Hseg as [Hc Hseg]. simpl in Hc, Hseg, Hf.
    simpl. unfold bind at 1. rewrite (iterator_next_some _ _ _ _ Hc). simpl.
    rewrite (IH (Some c)); [|done|lia].
    by rewrite <- app_assoc.
Qed.

(** Iteration produces the value of every node of the chain, also of the
    node an empty deque keeps. *)
Lemma iterate_spec fuel d h cs vs :
  Rep d h cs vs -> (length vs < fuel)%nat ->
  iterate fuel d h = Ret (cs.*2) d h.
Proof.
  intros HR Hf.
  assert (dlseg h None cs None /\ head d = first_ref cs None
          /\ (length cs <= fuel)%nat) as (Hseg & Hhd & Hl).
  { destruct vs.
    - apply Rep_nil_inv in HR as (s & -> & Hhd & Htl & Hlen & Hs).
      simpl in *. split_and!; try done; lia.
    - apply Rep_cons_inv in HR as (Hnd & Hseg & Hhd & Htl & Hlen & Hvs).
      split_and!; try done. rewrite <- Hvs, length_fmap in Hf. lia. }
  unfold iterate, iterator. mrun.
  by erewrite drain_spec.
Qed.

(** ** Several deques in one store, construction and [copy] *)

Lemma evolves_trans cs h cs' h' cs'' h'' :
  evolves cs h cs' h' -> evolves cs' h' cs'' h'' -> evolves cs h cs'' h''.
Proof.
  intros [H1 H2] [H3 H4]. split.
  - intros l Hl Hs. rewrite H3; [by apply H1| |by rewrite H1].
    intros Hl'. apply H2 in Hl' as [?|Hn]; [done|].
    rewrite Hn in Hs. by destruct Hs.
  - intros l Hl. apply H4 in Hl as [Hl|Hn]; [by apply H2|].
    destruct (decide (l ∈ cs.*1)) as [|Hni]; [by left|]. right.
    destruct (h !! l) eqn:E; [|done].
    rewrite H1 in Hn; [congruence|done|]. rewrite E. eauto.
Qed.

(** Another chain in the same store is not disturbed. *)
Lemma evolves_frame cs h cs' h' p R q :
  evolves cs h cs' h' -> dlseg h p R q ->
  (forall l, l ∈ R.*1 -> l ∉ cs.*1) ->
  dlseg h' p R q /\ (forall l, l ∈ R.*1 -> l ∉ cs'.*1).
Proof.
  intros [H1 H2] Hseg Hdisj. split.
  - eapply dlseg_agree; [|exact Hseg]. intros l Hl. apply H1; [by apply Hdisj|].
    by eapply dlseg_alloc.
  - intros l Hl Hl'. apply H2 in Hl' as [Hl'|Hn]; [by eapply Hdisj|].
    eapply dlseg_alloc in Hl; [|exact Hseg]. rewrite Hn in Hl. by destruct Hl.
Qed.

Lemma Rep_alloc d h cs vs l : Rep d h cs vs -> l ∈ cs.*1 -> is_Some (h !! l).
Proof. intros (_ & Hseg & _) Hl. by eapply dlseg_alloc. Qed.

Lemma Rep_agree d h h' cs vs :
  Rep d h cs vs -> (forall l, l ∈ cs.*1 -> h' !! l = h !! l) -> Rep d h' cs vs.
Proof.
  intros (Hnd & Hseg & Hrest) Hag. split; [done|]. split; [|done].
  by eapply dlseg_agree.
Qed.

Lemma Rep_frame cs h cs' h' d2 cs2 vs2 :
  evolves cs h cs' h' -> Rep d2 h cs2 vs2 ->
  (forall l, l ∈ cs2.*1 -> l ∉ cs.*1) ->
  Rep d2 h' cs2 vs2 /\ (forall l, l ∈ cs2.*1 -> l ∉ cs'.*1).
Proof.
  intros Hev HR Hdisj. pose proof HR as (Hnd & Hseg & Hrest).
  destruct (evolves_frame _ _ _ _ _ _ _ Hev Hseg Hdisj) as [Hseg' Hd'].
  split; [|done]. by split.
Qed.

Lemma for_of_push_spec xs d h cs vs :
  Rep d h cs vs ->
  exists d' h' cs',
    for_of xs push d h = Ret tt d' h' /\ Rep d' h' cs' (push_all vs xs)
    /\ evolves cs h cs' h'.
Proof.
  revert d h cs vs. induction xs as [|x xs IH]; intros d h cs vs HR.
  - exists d, h, cs. split_and!; [done|done|apply evolves_refl].
  - destruct (push_spec x _ _ _ _ HR) as (d1 & h1 & cs1 & Hp & HR1 & Hev1).
    destruct (IH _ _ _ _ HR1) as (d2 & h2 & cs2 & Hf & HR2 & Hev2).
    exists d2, h2, cs2. split_and!.
    + simpl. unfold bind. by rewrite Hp.
    + done.
    + by eapply evolves_trans.
Qed.

Lemma push_all_app vs xs :
  vs <> [] -> push_all vs xs = vs ++ (default_null <$> xs).
Proof.
  revert vs. induction xs as [|x xs IH]; intros vs Hne; simpl.
  - by rewrite app_nil_r.
  - rewrite IH by by destruct vs. rewrite <- app_assoc. by destruct vs.
Qed.

Lemma push_all_nil xs : push_all [] xs = pushed xs.
Proof. destruct xs as [|x xs]; [done|]. simpl. by rewrite push_all_app. Qed.

Lemma default_null_defined v : v <> JUndefined -> default_null v = v.
Proof. by destruct v. Qed.

Lemma stored_defined vs v : v <> JUndefined -> stored vs v = v.
Proof. intros Hv. destruct vs; [done|]. by apply default_null_defined. Qed.

Lemma fmap_default_null_defined (vs : list jsval) :
  JUndefined ∉ vs -> default_null <$> vs = vs.
Proof.
  induction vs as [|v vs IH]; intros Hn; [done|]. csimpl.
  rewrite not_elem_of_cons in Hn. destruct Hn as [Hv Hn].
  by rewrite default_null_defined, IH.
Qed.

Lemma pushed_defined xs : JUndefined ∉ drop 1 xs -> pushed xs = xs.
Proof.
  destruct xs as [|x xs]; [done|]. simpl. rewrite drop_0. intros Hn.
  by rewrite fmap_default_null_defined.
Qed.

Lemma pushed_length xs : length (pushed xs) = length xs.
Proof. destruct xs; [done|]. simpl. by rewrite length_fmap. Qed.

Lemma new_Deque_spec xs d h :
  exists nd h' cs,
    new_Deque xs d h = Ret nd d h' /\ Rep nd h' cs (pushed xs)
    /\ evolves [] h cs h'.
Proof.
  pose proof (fresh_lookup h) as Hfl.
  remember (fresh (dom h)) as l eqn:Heql.
  set (h0 := <[l := mkNode JNull None None]> h).
  assert (Rep (mkDeque (Some l) (Some l) 0) h0 [(l, JNull)] []) as HR0.
  { apply Rep_intro_nil; try done. unfold h0. by rewrite lookup_insert_eq. }
  destruct (for_of_push_spec xs _ _ _ _ HR0) as (d1 & h1 & cs1 & Hf & HR1 & Hev).
  exists d1, h1, cs1. split_and!.
  - unfold new_Deque. mrun. change (default_null JUndefined) with JNull.
    fold h0. rewrite Hf. done.
  - by rewrite <- push_all_nil.
  - eapply evolves_trans; [|exact Hev]. split.
    + intros x _ Hx. unfold h0. rewrite lookup_insert_ne; [done|].
      intros ->. rewrite Hfl in Hx. by destruct Hx.
    + intros x Hx. right. simpl in Hx. apply list_elem_of_singleton in Hx.
      by subst.
Qed.

Lemma copy_loop_spec R : forall fuel p nd ccs cvs d h,
  Rep nd h ccs cvs -> dlseg h p R None ->
  (forall l, l ∈ R.*1 -> l ∉ ccs.*1) ->
  (length R <= fuel)%nat ->
  exists nd' h' ccs',
    copy_loop fuel nd (first_ref R None) d h = Ret nd' d h'
    /\ Rep nd' h' ccs' (push_all cvs R.*2) /\ evolves ccs h ccs' h'.
Proof.
  induction R as [|[c vc] R IH]; intros fuel p nd ccs cvs d h HR Hseg Hdisj Hf.
  - exists nd, h, ccs.
    split_and!; [by destruct fuel|done|apply evolves_refl].
  - destruct fuel as [|fuel]; [simpl in Hf; lia|]. simpl in Hf.
    destruct (push_spec vc _ _ _ _ HR) as (nd1 & h1 & ccs1 & Hp & HR1 & Hev1).
    destruct (evolves_frame _ _ _ _ _ _ _ Hev1 Hseg Hdisj) as [Hseg1 Hdisj1].
    destruct Hseg as [Hc Hseg]. destruct Hseg1 as [Hc1 Hseg1].
    simpl in Hc, Hc1, Hseg, Hseg1.
    destruct (IH fuel (Some c) nd1 ccs1 (cvs ++ [stored cvs vc]) d h1)
      as (nd2 & h2 & ccs2 & Hl & HR2 & Hev2); try done.
    { intros l Hl. apply Hdisj1. simpl. set_solver. }
    { lia. }
    exists nd2, h2, ccs2. split_and!.
    + simpl. mrun. rewrite Hp. mrun. exact Hl.
    + done.
    + by eapply evolves_trans.
Qed.

Lemma copy_spec fuel d h cs vs :
  Rep d h cs vs -> (length vs <= fuel)%nat ->
  exists c h' ccs,
    copy fuel d h = Ret c d h' /\ Rep c h' ccs (pushed vs) /\ Rep d h' cs vs
    /\ evolves [] h ccs h'.
Proof.
  intros HR Hf.
  destruct (new_Deque_spec [] d h) as (nd & h0 & cs0 & Hn & HR0 & Hev0).
  assert (Rep d h0 cs vs) as HRd0.
  { eapply Rep_agree; [done|]. intros l Hl. apply Hev0; [set_solver|].
    by eapply Rep_alloc. }
  assert (forall l, l ∈ cs.*1 -> l ∉ cs0.*1) as Hdisj.
  { intros l Hl Hl'. apply Hev0 in Hl' as [?|Hnone]; [set_solver|].
    apply (Rep_alloc _ _ _ _ _ HR) in Hl. rewrite Hnone in Hl.
    by destruct Hl. }
  destruct vs as [|v vs].
  - exists nd, h0, cs0. split_and!; try done.
    apply Rep_nil_inv in HR as (s & -> & Hhd & Htl & Hlen & Hs).
    unfold copy. mrun. exact Hn.
  - pose proof HRd0 as HRd0'.
    apply Rep_cons_inv in HRd0' as (Hnd & Hseg & Hhd & Htl & Hlen & Hvs).
    destruct (copy_loop_spec cs fuel None nd cs0 [] d h0)
      as (nd2 & h2 & ccs2 & Hl & HR2 & Hev2); try done.
    { rewrite <- Hvs, length_fmap in Hf. done. }
    exists nd2, h2, ccs2.
    assert (evolves [] h ccs2 h2) as Hev by by eapply evolves_trans.
    split_and!; try done.
    + unfold copy. mrun. rewrite eqb_false_of by (simpl; lia).
      unfold bind. rewrite Hn. mrun. exact Hl.
    + by rewrite Hvs, push_all_nil in HR2.
    + eapply Rep_agree; [exact HR|]. intros l Hl'. apply Hev; [set_solver|].
      by eapply Rep_alloc.
Qed.

(** ** [reverse] *)

Lemma first_ref_rev cs q : first_ref (rev cs) q = last_ref cs q.
Proof.
  revert q. induction cs as [|c cs IH]; intros q; simpl; [done|].
  by rewrite first_ref_app, IH.
Qed.

Lemma last_ref_rev cs p : last_ref (rev cs) p = first_ref cs p.
Proof. destruct cs as [|c cs]; simpl; [done|]. by rewrite last_ref_app. Qed.

Lemma fmap_rev {A B} (f : A -> B) (l : list A) : f <$> rev l = rev (f <$> l).
Proof.
  induction l as [|x l IH]; simpl; [done|]. by rewrite fmap_app, IH.
Qed.

Lemma elem_of_rev {A} (x : A) (l : list A) : x ∈ rev l <-> x ∈ l.
Proof. rewrite !list_elem_of_In. symmetry. apply in_rev. Qed.

Lemma NoDup_rev_2 {A} (l : list A) : NoDup l -> NoDup (rev l).
Proof.
  induction 1 as [|x l Hx Hl IH]; simpl; [constructor|].
  apply NoDup_app. split_and!; [done| |apply NoDup_singleton].
  intros y Hy Hy'. apply list_elem_of_singleton in Hy' as ->.
  by rewrite elem_of_rev in Hy.
Qed.

Lemma reverse_loop_spec R : forall fuel P d h,
  NoDup (P ++ R).*1 ->
  dlseg h (first_ref R None) (rev P) None ->
  dlseg h (last_ref P None) R None ->
  (length R <= fuel)%nat ->
  exists h',
    reverse_loop fuel (first_ref R None) d h = Ret tt d h'
    /\ dlseg h' None (rev (P ++ R)) None
    /\ (forall l, l ∉ (P ++ R).*1 -> h' !! l = h !! l).
Proof.
  induction R as [|[c vc] R IH]; intros fuel P d h Hnd HP HR Hf.
  - exists h. rewrite app_nil_r. split_and!; [by destruct fuel|done|done].
  - destruct fuel as [|fuel]; [simpl in Hf; lia|]. simpl in Hf.
    destruct HR as [Hc HR]. simpl in Hc, HR, HP.
    set (h2 := <[c := mkNode vc (first_ref R None) (last_ref P None)]> h).
    replace (P ++ (c, vc) :: R) with ((P ++ [(c, vc)]) ++ R) in *
      by by rewrite <- app_assoc.
    destruct (IH fuel (P ++ [(c, vc)]) d h2) as (h' & Hrun & Hseg & Hfr).
    + done.
    + rewrite rev_app_distr. simpl. split.
      * unfold h2. rewrite lookup_insert_eq, first_ref_rev. done.
      * eapply dlseg_agree; [|exact HP]. intros l Hl. unfold h2.
        rewrite lookup_insert_ne; [done|]. intros ->.
        rewrite fmap_rev in Hl. rewrite elem_of_rev in Hl.
        clear -Hnd Hl. sets_solver.
    + rewrite last_ref_app. simpl.
      eapply dlseg_agree; [|exact HR]. intros l Hl. unfold h2.
      rewrite lookup_insert_ne; [done|]. intros ->.
      clear -Hnd Hl. sets_solver.
    + lia.
    + exists h'. split_and!.
      * simpl. mrun. rewrite insert_insert_eq. fold h2. exact Hrun.
      * done.
      * intros l Hl. rewrite Hfr by done. unfold h2.
        rewrite lookup_insert_ne; [done|]. intros ->. apply Hl.
        rewrite !fmap_app. simpl. set_solver.
Qed.

Lemma reverse_spec fuel d h cs vs :
  Rep d h cs vs -> (length vs < fuel)%nat ->
  exists d' h' cs',
    reverse fuel d h = Ret tt d' h' /\ Rep d' h' cs' (rev vs)
    /\ evolves cs h cs' h'.
Proof.
  intros HR Hf.
  assert (NoDup cs.*1 /\ dlseg h None cs None /\ head d = first_ref cs None
          /\ tail d = last_ref cs None /\ (length cs <= fuel)%nat)
    as (Hnd & Hseg & Hhd & Htl & Hl).
  { destruct vs.
    - apply Rep_nil_inv in HR as (s & -> & Hhd & Htl & Hlen & Hs).
      simpl in *. split_and!; try done; first [solve_nodup|lia].
    - apply Rep_cons_inv in HR as (Hnd & Hseg & Hhd & Htl & Hlen & Hvs).
      split_and!; try done. rewrite <- Hvs, length_fmap in Hf. lia. }
  destruct (reverse_loop_spec cs fuel [] (mkDeque (tail d) (head d) (_length d)) h)
    as (h' & Hrun & Hseg' & Hfr); try done.
  exists (mkDeque (tail d) (head d) (_length d)), h', (rev cs). split_and!.
  - unfold reverse. mred. rewrite <- Hhd in Hrun. exact Hrun.
  - destruct HR as (_ & _ & _ & _ & Hlen & Hshape).
    unfold Rep. simpl. split_and!.
    + rewrite fmap_rev. by apply NoDup_rev_2.
    + done.
    + by rewrite first_ref_rev.
    + by rewrite last_ref_rev.
    + rewrite length_rev. done.
    + destruct Hshape as [[-> [s ->]]|[Hne ->]].
      * left. eauto.
      * right. rewrite fmap_rev. split; [|done].
        intros Hr. apply Hne. apply (f_equal (@rev _)) in Hr.
        by rewrite rev_involutive in Hr.
  - split.
    + intros l Hin _. by apply Hfr.
    + intros l Hin. left. rewrite fmap_rev in Hin.
      by rewrite elem_of_rev in Hin.
Qed.

(** ** [rotate] *)

Lemma cycr1_snoc ws v : cycr1 (ws ++ [v]) = v :: ws.
Proof. unfold cycr1. rewrite rev_app_distr. simpl. by rewrite rev_involutive. Qed.







Lemma iter_length (f : list jsval -> list jsval) n vs :
  (forall xs, length (f xs) = length xs) -> length (Nat.iter n f vs) = length vs.
Proof. intros Hf. induction n as [|n IH]; simpl; [done|]. by rewrite Hf. Qed.

Lemma stored_rev ws v : stored (rev ws) v = stored ws v.
Proof.
  destruct ws as [|w ws]; [done|]. simpl. by destruct (rev ws ++ [w]) eqn:E;
    [apply app_eq_nil in E as [_ ?]|].
Qed.

Lemma rotr1_snoc ws v : rotr1 (ws ++ [v]) = stored ws v :: ws.
Proof.
  unfold rotr1. rewrite rev_app_distr. simpl.
  by rewrite rev_involutive, stored_rev.
Qed.

Lemma rotr1_nonempty vs : vs <> [] -> rotr1 vs <> [].
Proof.
  destruct vs as [|v ws _] using rev_ind; [done|]. by rewrite rotr1_snoc.
Qed.

Lemma rotl1_nonempty vs : vs <> [] -> rotl1 vs <> [].
Proof. destruct vs as [|v ws]; [done|]. simpl. by destruct ws. Qed.

Lemma rotr1_length vs : length (rotr1 vs) = length vs.
Proof.
  destruct vs as [|v ws _] using rev_ind; [done|].
  rewrite rotr1_snoc, length_app. simpl. lia.
Qed.

Lemma rotl1_length vs : length (rotl1 vs) = length vs.
Proof. destruct vs as [|v ws]; [done|]. simpl. rewrite length_app. simpl. lia. Qed.

Lemma rotate_model_length k vs : length (rotate_model k vs) = length vs.
Proof.
  unfold rotate_model. destruct (k =? 0); [done|].
  destruct (num_gt _ _).
  - apply iter_length, rotr1_length.
  - apply iter_length, rotl1_length.
Qed.

Lemma rotr_step d h cs vs :
  Rep d h cs vs -> vs <> [] ->
  exists d' h' cs',
    (v <- pop ;; pushLeft v) d h = Ret tt d' h' /\ Rep d' h' cs' (rotr1 vs)
    /\ evolves cs h cs' h'.
Proof.
  intros HR Hne. destruct (snoc_inv vs Hne) as (ws & v & ->).
  destruct (pop_snoc _ _ _ _ _ HR) as (d1 & h1 & cs1 & Hp & HR1 & Hev1).
  destruct (pushLeft_spec v _ _ _ _ HR1) as (d2 & h2 & cs2 & Hq & HR2 & Hev2).
  exists d2, h2, cs2. split_and!.
  - unfold bind. by rewrite Hp.
  - by rewrite rotr1_snoc.
  - by eapply evolves_trans.
Qed.

Lemma rotl_step d h cs vs :
  Rep d h cs vs -> vs <> [] ->
  exists d' h' cs',
    (v <- popleft ;; push v) d h = Ret tt d' h' /\ Rep d' h' cs' (rotl1 vs)
    /\ evolves cs h cs' h'.
Proof.
  intros HR Hne. destruct vs as [|v ws]; [done|].
  destruct (popleft_cons _ _ _ _ _ HR) as (d1 & h1 & cs1 & Hp & HR1 & Hev1).
  destruct (push_spec v _ _ _ _ HR1) as (d2 & h2 & cs2 & Hq & HR2 & Hev2).
  exists d2, h2, cs2. split_and!.
  - unfold bind. by rewrite Hp.
  - done.
  - by eapply evolves_trans.
Qed.

Lemma for_count_spec (body : M unit) (f : list jsval -> list jsval) :
  (forall d h cs vs, Rep d h cs vs -> vs <> [] ->
     exists d' h' cs',
       body d h = Ret tt d' h' /\ Rep d' h' cs' (f vs) /\ evolves cs h cs' h') ->
  (forall vs, vs <> [] -> f vs <> []) ->
  forall n d h cs vs, Rep d h cs vs -> vs <> [] ->
    exists d' h' cs',
      for_count n body d h = Ret tt d' h' /\ Rep d' h' cs' (Nat.iter n f vs)
      /\ evolves cs h cs' h'.
Proof.
  intros Hbody Hf n. induction n as [|n IH]; intros d h cs vs HR Hne.
  - exists d, h, cs. split_and!; [done|done|apply evolves_refl].
  - destruct (Hbody _ _ _ _ HR Hne) as (d1 & h1 & cs1 & Hb & HR1 & Hev1).
    destruct (IH _ _ _ _ HR1 (Hf _ Hne)) as (d2 & h2 & cs2 & Hc & HR2 & Hev2).
    exists d2, h2, cs2. split_and!.
    + simpl. unfold bind. by rewrite Hb.
    + by rewrite Nat.iter_succ_r.
    + by eapply evolves_trans.
Qed.

Lemma optimizeSteps_eq steps d h :
  optimizeSteps steps d h = Ret (opt_steps steps (_length d)) d h.
Proof.
  unfold optimizeSteps, opt_steps. mred.
  destruct (num_gt _ _); [|done]. by destruct (num_gt _ _).
Qed.

Lemma rotate_spec k d h cs vs :
  Rep d h cs vs ->
  exists d' h' cs',
    rotate k d h = Ret tt d' h' /\ Rep d' h' cs' (rotate_model k vs)
    /\ evolves cs h cs' h'.
Proof.
  intros HR. pose proof (Rep_length _ _ _ _ HR) as Hlen.
  unfold rotate, rotate_model. destruct (k =? 0).
  { exists d, h, cs. split_and!; [done|done|apply evolves_refl]. }
  unfold bind at 1. rewrite optimizeSteps_eq, Hlen.
  destruct vs as [|v0 vs0].
  { exists d, h, cs. simpl. split_and!; [done|done|apply evolves_refl]. }
  destruct (num_gt (opt_steps k _) (Fin 0)).
  - apply for_count_spec; try done.
    + apply rotr_step.
    + apply rotr1_nonempty.
  - apply for_count_spec; try done.
    + apply rotl_step.
    + apply rotl1_nonempty.
Qed.

(** ** The executable invariant *)

Lemma dlsegb_spec h p cs q : dlsegb h p cs q = true <-> dlseg h p cs q.
Proof.
  revert p. induction cs as [|c cs IH]; intros p; simpl; [done|].
  rewrite andb_true_iff, bool_decide_eq_true, IH. done.
Qed.

Lemma collect_dlseg h p cs :
  dlseg h p cs None -> collect h (length cs) (first_ref cs None) = cs.
Proof.
  revert p. induction cs as [|[c vc] cs IH]; intros p; simpl; [done|].
  intros [-> Hseg]. simpl. f_equal. by eapply IH.
Qed.

Lemma wf_Rep d h : wf d h = true -> Rep d h (chain_of d h) (elements_of d h).
Proof.
  unfold wf. rewrite !andb_true_iff, !bool_decide_eq_true, dlsegb_spec.
  intros ((((Hnd & Hseg) & Hhd) & Htl) & Hshape).
  unfold Rep, elements_of. destruct (_length d =? 0) eqn:E.
  - apply Z.eqb_eq in E. apply bool_decide_eq_true in Hshape.
    split_and!; try done. left. split; [done|].
    destruct (chain_of d h) as [|[s v] [|? ?]]; simplify_eq/=. eauto.
  - apply Z.eqb_neq in E. apply andb_true_iff in Hshape as [H0 Hl].
    apply Z.eqb_eq in Hl. split_and!; try done.
    + by rewrite length_fmap.
    + right. split; [|done]. intros Hnil.
      apply (f_equal length) in Hnil. rewrite length_fmap in Hnil.
      simpl in Hnil. lia.
Qed.

Lemma Rep_chain d h cs vs :
  Rep d h cs vs -> chain_of d h = cs /\ elements_of d h = vs.
Proof.
  intros HR. unfold elements_of, chain_of. destruct vs as [|v vs].
  - apply Rep_nil_inv in HR as (s & -> & Hhd & Htl & Hlen & Hs).
    rewrite Hlen, Hhd. simpl. by rewrite Hs.
  - apply Rep_cons_inv in HR as (Hnd & Hseg & Hhd & Htl & Hlen & Hvs).
    assert (Z.to_nat (Z.max 1 (_length d)) = length cs) as ->.
    { rewrite <- Hvs, length_fmap in Hlen. rewrite Hlen.
      destruct cs; [done|]. simpl. lia. }
    rewrite Hhd, (collect_dlseg _ _ _ Hseg), eqb_false_of by (simpl in *; lia).
    done.
Qed.

Lemma Rep_wf d h cs vs : Rep d h cs vs -> wf d h = true.
Proof.
  intros HR. destruct (Rep_chain _ _ _ _ HR) as [Hc _].
  unfold wf. rewrite Hc.
  destruct HR as (Hnd & Hseg & Hhd & Htl & Hlen & Hshape).
  rewrite !andb_true_iff, !bool_decide_eq_true, dlsegb_spec.
  split_and!; try done.
  destruct Hshape as [[-> [s ->]]|[Hne ->]].
  - simpl in Hlen. rewrite Hlen. done.
  - rewrite length_fmap in Hlen.
    assert (0 < _length d) by (destruct cs; [done|simpl in *; lia]).
    rewrite eqb_false_of by lia. apply andb_true_iff. split; lia.
Qed.

(** ** Every operation on a well-formed deque *)

Lemma list_split_at {A} (vs : list A) (i : nat) :
  (i < length vs)%nat -> exists xs y ys, vs = xs ++ y :: ys /\ length xs = i.
Proof.
  intros Hi. destruct (lookup_lt_is_Some_2 vs i Hi) as [y Hy].
  apply list_elem_of_split_length in Hy as (xs & ys & -> & ->). eauto.
Qed.

Lemma at_range_error fuel index d h :
  index < 0 \/ _length d <= index -> at_ fuel index d h = Throw RangeError d h.
Proof.
  intros Hi. unfold at_. mred.
  replace ((index >=? _length d) || (index <? 0)) with true; [done|].
  symmetry. apply orb_true_iff. lia.
Qed.

Lemma insertAt_range_error fuel v index d h :
  index < 0 \/ _length d <= index ->
  insertAt fuel v index d h = Throw RangeError d h.
Proof.
  intros Hi. unfold insertAt. mred.
  replace ((index <? 0) || (index >=? _length d)) with true; [done|].
  symmetry. apply orb_true_iff. lia.
Qed.

Lemma removeAt_range_error fuel index d h :
  index < 0 \/ _length d <= index ->
  removeAt fuel index d h = Throw RangeError d h.
Proof.
  intros Hi. unfold removeAt. mred.
  replace ((index <? 0) || (index >=? _length d)) with true; [done|].
  symmetry. apply orb_true_iff. lia.
Qed.

Lemma Rep_index d h cs vs (index : Z) :
  Rep d h cs vs -> 0 <= index < _length d ->
  exists xs y ys, vs = xs ++ y :: ys /\ index = Z.of_nat (length xs).
Proof.
  intros HR Hi. apply Rep_length in HR.
  destruct (list_split_at vs (Z.to_nat index)) as (xs & y & ys & -> & Hl); [lia|].
  exists xs, y, ys. split; [done|lia].
Qed.

Lemma evolves_alloc_only cs h ccs h' : evolves [] h ccs h' -> evolves cs h cs h'.
Proof.
  intros [H1 _]. split; [|by left]. intros l _ Hs. apply H1; [|done].
  simpl. set_solver.
Qed.

Ltac op_returns Hrun HR' Hev :=
  left; eexists _, _, _, _, _;
  split_and!;
  [ unfold run_op, bind; rewrite Hrun; reflexivity
  | exact HR' | exact Hev | try len_solver | intros ? ?; discriminate ].

Lemma run_op_spec fuel o d h cs vs :
  Rep d h cs vs -> (length vs < fuel)%nat ->
  (exists r d' h' cs' vs',
      run_op fuel o d h = Ret r d' h' /\ Rep d' h' cs' vs'
      /\ evolves cs h cs' h'
      /\ (length vs' <= S (length vs))%nat
      /\ (forall c, r = RDeque c ->
            exists ccs cvs, Rep c h' ccs cvs /\ evolves [] h ccs h'))
  \/ run_op fuel o d h = Throw RangeError d h.
Proof.
  intros HR Hf. pose proof (Rep_length _ _ _ _ HR) as Hlen.
  destruct o as [v|v| | | | |i|v i|i| |k| | | | |xs].
  - destruct (push_spec v _ _ _ _ HR) as (d' & h' & cs' & Hrun & HR' & Hev).
    op_returns Hrun HR' Hev.
  - destruct (pushLeft_spec v _ _ _ _ HR) as (d' & h' & cs' & Hrun & HR' & Hev).
    op_returns Hrun HR' Hev.
  - destruct vs as [|v vs _] using rev_ind.
    + pose proof (pop_nil _ _ _ HR) as Hrun.
      op_returns Hrun HR (evolves_refl cs h).
    + destruct (pop_snoc _ _ _ _ _ HR) as (d' & h' & cs' & Hrun & HR' & Hev).
      op_returns Hrun HR' Hev.
  - destruct vs as [|v vs].
    + pose proof (popleft_nil _ _ _ HR) as Hrun.
      op_returns Hrun HR (evolves_refl cs h).
    + destruct (popleft_cons _ _ _ _ _ HR) as (d' & h' & cs' & Hrun & HR' & Hev).
      op_returns Hrun HR' Hev.
  - pose proof (getHead_spec _ _ _ _ HR) as Hrun.
    op_returns Hrun HR (evolves_refl cs h).
  - pose proof (getTail_spec _ _ _ _ HR) as Hrun.
    op_returns Hrun HR (evolves_refl cs h).
  - destruct (decide (0 <= i < _length d)) as [Hi|Hi].
    + destruct (Rep_index _ _ _ _ _ HR Hi) as (xs & y & ys & -> & ->).
      assert (at_ fuel (Z.of_nat (length xs)) d h = Ret y d h) as Hrun
        by (eapply at_spec; [done|lia]).
      op_returns Hrun HR (evolves_refl cs h).
    + right. unfold run_op, bind. rewrite at_range_error by lia. done.
  - destruct (decide (0 <= i < _length d)) as [Hi|Hi].
    + destruct (Rep_index _ _ _ _ _ HR Hi) as (xs & y & ys & -> & ->).
      destruct (insertAt_spec fuel v _ _ _ _ _ _ HR)
        as (d' & h' & cs' & Hrun & HR' & Hev); [lia|].
      op_returns Hrun HR' Hev.
    + right. unfold run_op, bind. rewrite insertAt_range_error by lia. done.
  - destruct (decide (0 <= i < _length d)) as [Hi|Hi].
    + destruct (Rep_index _ _ _ _ _ HR Hi) as (xs & y & ys & -> & ->).
      destruct (removeAt_spec fuel _ _ _ _ _ _ HR)
        as (d' & h' & cs' & Hrun & HR' & Hev); [lia|].
      op_returns Hrun HR' Hev.
    + right. unfold run_op, bind. rewrite removeAt_range_error by lia. done.
  - destruct (reverse_spec fuel _ _ _ _ HR Hf)
      as (d' & h' & cs' & Hrun & HR' & Hev).
    op_returns Hrun HR' Hev. rewrite length_rev. lia.
  - destruct (rotate_spec k _ _ _ _ HR) as (d' & h' & cs' & Hrun & HR' & Hev).
    op_returns Hrun HR' Hev.
    rewrite rotate_model_length. lia.
  - destruct (copy_spec fuel _ _ _ _ HR) as (c & h' & ccs & Hrun & HRc & HRd & Hev);
      [lia|].
    left. exists (RDeque c), d, h', cs, vs. split_and!.
    + unfold run_op, bind. by rewrite Hrun.
    + done.
    + by eapply evolves_alloc_only.
    + lia.
    + intros c' [= <-]. eauto.
  - destruct (clear_spec _ _ _ _ HR) as (d' & h' & cs' & Hrun & HR' & Hev).
    op_returns Hrun HR' Hev.
  - assert (toArray fuel d h = Ret vs d h) as Hrun
      by (eapply toArray_spec; [done|lia]).
    op_returns Hrun HR (evolves_refl cs h).
  - pose proof (iterate_spec fuel _ _ _ _ HR Hf) as Hrun.
    op_returns Hrun HR (evolves_refl cs h).
  - destruct (new_Deque_spec xs d h) as (c & h' & ccs & Hrun & HRc & Hev).
    left. exists (RDeque c), d, h', cs, vs. split_and!.
    + unfold run_op, bind. by rewrite Hrun.
    + eapply Rep_agree; [exact HR|]. intros l Hl. apply Hev; [set_solver|].
      by eapply Rep_alloc.
    + by eapply evolves_alloc_only.
    + lia.
    + intros c' [= <-]. eauto.
Qed.

(** * The properties of the specification *)

Example sample_is_new_Deque :
  new_Deque [JNum 1; JNum 2; JNum 3] (mkDeque None None 0) ∅
  = Ret sample_deque (mkDeque None None 0) sample_heap.
Proof. vm_compute. reflexivity. Qed.

Example sample_wf : wf sample_deque sample_heap = true.
Proof. vm_compute. reflexivity. Qed.

Lemma Rep_toArray fuel d h cs vs :
  Rep d h cs vs -> (Z.to_nat (_length d) < fuel)%nat ->
  toArray fuel d h = Ret vs d h.
Proof.
  intros HR Hf. pose proof (Rep_length _ _ _ _ HR).
  eapply toArray_spec; [done|lia].
Qed.

(** On at most one element [reverse] changes neither the deque object nor
    the store. *)
Lemma reverse_small fuel d h cs vs :
  Rep d h cs vs -> (length vs <= 1)%nat -> (1 <= fuel)%nat ->
  reverse fuel d h = Ret tt d h.
Proof.
  intros HR Hl Hf.
  assert (exists s v, h !! s = Some (mkNode v None None) /\ head d = Some s
                      /\ tail d = Some s) as (s & v & Hs & Hhd & Htl).
  { destruct vs as [|v vs].
    - apply Rep_nil_inv in HR as (s & -> & Hhd & Htl & Hlen & Hs). eauto.
    - apply Rep_cons_inv in HR as (Hnd & Hseg & Hhd & Htl & Hlen & Hvs).
      destruct vs; [|simpl in Hl; lia].
      destruct cs as [|[s w] [|? ?]]; simplify_eq/=.
      destruct Hseg as [Hs _]. eauto. }
  destruct fuel as [|fuel]; [lia|].
  unfold reverse. mrun. simpl. mrun.
  rewrite insert_insert_eq, insert_id by done.
  destruct fuel; simpl; unfold ret; destruct d; simpl in *; by subst.
Qed.

(** C7. For every deque, [reverse()] makes [toArray()] the reversal of what
    it was, so a second [reverse()] restores the original order; on a deque
    of length 0 or 1 it changes nothing at all. *)
Theorem reverse_reverses_toArray fuel d h :
  wf d h = true -> (Z.to_nat (_length d) < fuel)%nat ->
  exists vs d' h',
    toArray fuel d h = Ret vs d h
    /\ reverse fuel d h = Ret tt d' h'
    /\ toArray fuel d' h' = Ret (rev vs) d' h'
    /\ (exists d'' h'',
          reverse fuel d' h' = Ret tt d'' h''
          /\ toArray fuel d'' h'' = Ret vs d'' h'')
    /\ (_length d <= 1 -> d' = d /\ h' = h).
Proof.
  intros Hwf Hf. apply wf_Rep in Hwf.
  set (cs := chain_of d h) in *. set (vs := elements_of d h) in *.
  pose proof (Rep_length _ _ _ _ Hwf) as Hlen.
  destruct (reverse_spec fuel _ _ _ _ Hwf) as (d1 & h1 & cs1 & Hr1 & HR1 & _);
    [lia|].
  pose proof (Rep_length _ _ _ _ HR1) as Hlen1. rewrite length_rev in Hlen1.
  destruct (reverse_spec fuel _ _ _ _ HR1) as (d2 & h2 & cs2 & Hr2 & HR2 & _);
    [rewrite length_rev; lia|].
  rewrite rev_involutive in HR2.
  pose proof (Rep_length _ _ _ _ HR2) as Hlen2.
  exists vs, d1, h1. split_and!.
  - eapply Rep_toArray; [done|lia].
  - done.
  - eapply Rep_toArray; [done|lia].
  - exists d2, h2. split; [done|]. eapply Rep_toArray; [done|lia].
  - intros Hsmall.
    assert (reverse fuel d h = Ret tt d h) as Hid
      by (eapply reverse_small; [done|lia|lia]).
    rewrite Hid in Hr1. by injection Hr1.
Qed.

Lemma reverse_reverses_toArray_witness :
  exists vs d' h',
    toArray 4 sample_deque sample_heap = Ret vs sample_deque sample_heap
    /\ reverse 4 sample_deque sample_heap = Ret tt d' h'
    /\ toArray 4 d' h' = Ret (rev vs) d' h'
    /\ (exists d'' h'',
          reverse 4 d' h' = Ret tt d'' h''
          /\ toArray 4 d'' h'' = Ret vs d'' h'')
    /\ (_length sample_deque <= 1 -> d' = sample_deque /\ h' = sample_heap).
Proof.
  apply (reverse_reverses_toArray 4 sample_deque sample_heap).
  - vm_compute. reflexivity.
  - vm_compute. lia.
Defined.

Lemma opt_steps_value steps len :
  0 < len ->
  exists s, opt_steps steps len = Fin s /\ opt_steps (- steps) len = Fin (- s)
            /\ (s - steps) mod len = 0 /\ Z.abs s <= len / 2.
Proof.
  intros Hlen. unfold opt_steps, js_rem.
  rewrite !eqb_false_of by lia. rewrite Z.rem_opp_l by lia.
  set (r := Z.rem steps len). set (q := steps ÷ len).
  assert (Z.abs r < len) as Hr.
  { pose proof (Z.rem_bound_abs steps len ltac:(lia)) as Hb. fold r in Hb. lia. }
  assert (steps = len * q + r) as Hq by (apply Z.quot_rem'; lia).
  assert (2 * (len / 2) <= len < 2 * (len / 2) + 2) as Hhalf.
  { pose proof (Z.div_mod len 2 ltac:(lia)).
    pose proof (Z.mod_pos_bound len 2 ltac:(lia)). lia. }
  simpl. rewrite Z.abs_opp.
  destruct (Z.gtb_spec (Z.abs r) (len / 2)) as [Hbig|Hsmall].
  - destruct (Z.gtb_spec r 0) as [Hpos|Hneg];
      destruct (Z.gtb_spec (- r) 0) as [Hpos'|Hneg']; try lia.
    + exists (r - len). split_and!; [done|f_equal; lia| |lia].
      replace (r - len - steps) with ((- q - 1) * len) by lia.
      apply Z.mod_mul. lia.
    + exists (r + len). split_and!; [done|f_equal; lia| |lia].
      replace (r + len - steps) with ((- q + 1) * len) by lia.
      apply Z.mod_mul. lia.
  - exists r. split_and!; [done|done| |lia].
    replace (r - steps) with ((- q) * len) by lia.
    apply Z.mod_mul. lia.
Qed.




Lemma became_refl a : became a a.
Proof. by left. Qed.

Lemma became_default_null a b : became a b -> became a (default_null b).
Proof.
  intros [->|[-> ->]]; [|by right]. destruct a; try (by left). by right.
Qed.

Lemma became_stored a b ws : became a b -> became a (stored ws b).
Proof. intros H. destruct ws; [done|]. by apply became_default_null. Qed.

Lemma Forall2_became_refl vs : Forall2 became vs vs.
Proof. induction vs; constructor; [apply became_refl|done]. Qed.

(** Where nothing is [undefined], nothing has changed. *)
Lemma became_defined vs vs' :
  Forall2 became vs vs' -> JUndefined ∉ vs -> vs' = vs.
Proof.
  induction 1 as [|a b vs vs' Hab _ IH]; intros Hn; [done|].
  rewrite not_elem_of_cons in Hn. destruct Hn as [Ha Hn].
  rewrite IH by done. by destruct Hab as [->|[-> _]].
Qed.

Lemma cycr1_became a b :
  Forall2 became a b -> Forall2 became (cycr1 a) (rotr1 b).
Proof.
  intros H. destruct a as [|x a' _] using rev_ind.
  - apply Forall2_nil_inv_l in H as ->. constructor.
  - apply Forall2_app_inv_l in H as (b' & yl & Hab & Hxy & ->).
    apply Forall2_cons_inv_l in Hxy as (y & yl' & Hxy & Hnil & ->).
    apply Forall2_nil_inv_l in Hnil as ->.
    rewrite cycr1_snoc, rotr1_snoc. constructor; [by apply became_stored|done].
Qed.

Lemma cycl1_became a b :
  Forall2 became a b -> Forall2 became (cycl1 a) (rotl1 b).
Proof.
  intros H. destruct H as [|x y a' b' Hxy Hab]; [constructor|]. simpl.
  apply Forall2_app; [done|]. constructor; [by apply became_stored|constructor].
Qed.

Lemma iter_became (f g : list jsval -> list jsval) n a b :
  (forall a b, Forall2 became a b -> Forall2 became (f a) (g b)) ->
  Forall2 became a b -> Forall2 became (Nat.iter n f a) (Nat.iter n g b).
Proof. intros Hfg Hab. induction n; simpl; [done|]. by apply Hfg. Qed.

(** The elements after [rotate(k)] are the cyclic shift of the elements
    before, up to [undefined] elements that have become [null]. *)
Lemma cyc_model_became k a b :
  Forall2 became a b -> Forall2 became (cyc_model k a) (rotate_model k b).
Proof.
  intros Hab. unfold cyc_model, rotate_model.
  rewrite <- (Forall2_length _ _ _ Hab).
  destruct (k =? 0); [done|].
  destruct (num_gt _ _); apply iter_became;
    auto using cycr1_became, cycl1_became.
Qed.


Example undef_is_built :
  exists d h,
    new_Deque [JUndefined] (mkDeque None None 0) ∅
    = Ret d (mkDeque None None 0) h
    /\ run_ops 2 [OpPushLeft (JNum 1); OpPush (JNum 2); OpPush (JNum 3)] d h
       = Ret tt undef_deque undef_heap.
Proof. do 2 eexists. split; vm_compute; reflexivity. Qed.

Example undef_wf : wf undef_deque undef_heap = true.
Proof. vm_compute. reflexivity. Qed.




(** C5. On a deque of length at least 1, [optimizeSteps(steps)] returns an
    integer congruent to [steps] modulo the length and of absolute value at
    most half the length, and [rotate(steps)] is that many single moves
    ([pushLeft(pop())] or [push(popleft())]) at most. *)
Theorem optimizeSteps_bound steps d h :
  1 <= _length d ->
  exists s n,
    optimizeSteps steps d h = Ret (Fin s) d h
    /\ (s - steps) mod _length d = 0
    /\ Z.abs s <= _length d / 2
    /\ Z.of_nat n <= _length d / 2
    /\ (rotate steps d h = for_count n (v <- pop ;; pushLeft v) d h
        \/ rotate steps d h = for_count n (v <- popleft ;; push v) d h).
Proof.
  intros Hlen.
  destruct (opt_steps_value steps (_length d)) as (s & Hs & _ & Hmod & Habs);
    [lia|].
  exists s, (Z.to_nat (Z.abs s)). split_and!; try done.
  - by rewrite optimizeSteps_eq, Hs.
  - lia.
  - destruct (Z.eqb_spec steps 0) as [->|Hne].
    + left. assert (s = 0) as ->; [|done].
      unfold opt_steps, js_rem in Hs. rewrite eqb_false_of in Hs by lia.
      rewrite Z.rem_0_l in Hs by lia. simpl in Hs.
      change (Z.abs 0) with 0 in Hs.
      destruct (Z.gtb_spec 0 (_length d / 2)); [|by injection Hs].
      pose proof (Z.div_pos (_length d) 2). lia.
    + assert (rotate steps d h =
              (if s >? 0 then for_count (Z.to_nat s) (v <- pop ;; pushLeft v)
               else for_count (Z.to_nat (Z.abs s)) (v <- popleft ;; push v))
                d h) as ->.
      { unfold rotate. rewrite eqb_false_of by done.
        unfold bind at 1. by rewrite optimizeSteps_eq, Hs. }
      destruct (Z.gtb_spec s 0).
      * left. by replace (Z.to_nat (Z.abs s)) with (Z.to_nat s) by lia.
      * by right.
Qed.

Lemma optimizeSteps_bound_witness :
  exists s n,
    optimizeSteps 8 sample_deque sample_heap
    = Ret (Fin s) sample_deque sample_heap
    /\ (s - 8) mod _length sample_deque = 0
    /\ Z.abs s <= _length sample_deque / 2
    /\ Z.of_nat n <= _length sample_deque / 2
    /\ (rotate 8 sample_deque sample_heap
        = for_count n (v <- pop ;; pushLeft v) sample_deque sample_heap
        \/ rotate 8 sample_deque sample_heap
           = for_count n (v <- popleft ;; push v) sample_deque sample_heap).
Proof.
  apply (optimizeSteps_bound 8 sample_deque sample_heap).
  vm_compute. discriminate.
Defined.

Lemma insertAt_in_range fuel v index d h cs vs :
  Rep d h cs vs -> (Z.to_nat (_length d) < fuel)%nat ->
  0 <= index < _length d ->
  exists xs y ys d' h' cs',
    vs = xs ++ y :: ys /\ index = Z.of_nat (length xs)
    /\ insertAt fuel v index d h = Ret true d' h'
    /\ Rep d' h' cs' (xs ++ default_null v :: y :: ys) /\ evolves cs h cs' h'.
Proof.
  intros HR Hf Hi. pose proof (Rep_length _ _ _ _ HR) as Hlen.
  destruct (Rep_index _ _ _ _ _ HR Hi) as (xs & y & ys & -> & ->).
  destruct (insertAt_spec fuel v _ _ _ _ _ _ HR)
    as (d' & h' & cs' & Hrun & HR' & Hev); [lia|].
  exists xs, y, ys, d', h', cs'. by split_and!.
Qed.

Lemma removeAt_in_range fuel index d h cs vs :
  Rep d h cs vs -> (Z.to_nat (_length d) < fuel)%nat ->
  0 <= index < _length d ->
  exists xs y ys d' h' cs',
    vs = xs ++ y :: ys /\ index = Z.of_nat (length xs)
    /\ removeAt fuel index d h = Ret y d' h'
    /\ Rep d' h' cs' (xs ++ ys) /\ evolves cs h cs' h'.
Proof.
  intros HR Hf Hi. pose proof (Rep_length _ _ _ _ HR) as Hlen.
  destruct (Rep_index _ _ _ _ _ HR Hi) as (xs & y & ys & -> & ->).
  destruct (removeAt_spec fuel _ _ _ _ _ _ HR)
    as (d' & h' & cs' & Hrun & HR' & Hev); [lia|].
  exists xs, y, ys, d', h', cs'. by split_and!.
Qed.




(** C10. For every deque and every index in range, [insertAt(value, index)]
    returns [true]: the [return false] after the loop is not reached. *)
Theorem insertAt_returns_true fuel v index d h :
  wf d h = true -> (Z.to_nat (_length d) < fuel)%nat ->
  0 <= index < _length d ->
  exists d' h', insertAt fuel v index d h = Ret true d' h'.
Proof.
  intros Hwf Hf Hi. apply wf_Rep in Hwf.
  destruct (insertAt_in_range fuel v index _ _ _ _ Hwf Hf Hi)
    as (xs & y & ys & d' & h' & cs' & _ & _ & Hrun & _).
  eauto.
Qed.

Lemma insertAt_returns_true_witness :
  exists d' h', insertAt 4 (JNum 9) 2 sample_deque sample_heap = Ret true d' h'.
Proof.
  apply (insertAt_returns_true 4 (JNum 9) 2 sample_deque sample_heap).
  - vm_compute. reflexivity.
  - vm_compute. lia.
  - simpl. lia.
Defined.

(** C3. The strict error policy: [at], [insertAt] and [removeAt] throw a
    RangeError exactly when [index < 0] or [index >= length], before touching
    anything, and return otherwise; on an empty deque [pop], [popleft],
    [getHead] and [getTail] return [null]. *)
Theorem strict_error_policy fuel v index d h :
  wf d h = true -> (Z.to_nat (_length d) < fuel)%nat ->
  ((index < 0 \/ _length d <= index) ->
     at_ fuel index d h = Throw RangeError d h
     /\ insertAt fuel v index d h = Throw RangeError d h
     /\ removeAt fuel index d h = Throw RangeError d h)
  /\ (0 <= index < _length d ->
     (exists x, at_ fuel index d h = Ret x d h)
     /\ (exists d' h', insertAt fuel v index d h = Ret true d' h')
     /\ (exists x d' h', removeAt fuel index d h = Ret x d' h'))
  /\ (_length d = 0 ->
     pop d h = Ret JNull d h /\ popleft d h = Ret JNull d h
     /\ getHead d h = Ret JNull d h /\ getTail d h = Ret JNull d h).
Proof.
  intros Hwf Hf. apply wf_Rep in Hwf.
  set (cs := chain_of d h) in *. set (vs := elements_of d h) in *.
  pose proof (Rep_length _ _ _ _ Hwf) as Hlen.
  split_and!.
  - intros Hi. split_and!.
    + by apply at_range_error.
    + by apply insertAt_range_error.
    + by apply removeAt_range_error.
  - intros Hi. split_and!.
    + destruct (Rep_index _ _ _ _ _ Hwf Hi) as (xs & y & ys & Hvs & ->).
      exists y. rewrite Hvs in Hwf, Hlen. eapply at_spec; [done|lia].
    + destruct (insertAt_in_range fuel v index _ _ _ _ Hwf Hf Hi)
        as (xs & y & ys & d' & h' & cs' & _ & _ & Hrun & _).
      eauto.
    + destruct (removeAt_in_range fuel index _ _ _ _ Hwf Hf Hi)
        as (xs & y & ys & d' & h' & cs' & _ & _ & Hrun & _).
      eauto.
  - intros H0. assert (vs = []) as Hnil.
    { destruct vs; [done|]. simpl in Hlen. lia. }
    rewrite Hnil in Hwf. split_and!.
    + by eapply pop_nil.
    + by eapply popleft_nil.
    + by rewrite (getHead_spec _ _ _ _ Hwf).
    + by rewrite (getTail_spec _ _ _ _ Hwf).
Qed.

Lemma strict_error_policy_witness :
  ((3 < 0 \/ _length sample_deque <= 3) ->
     at_ 4 3 sample_deque sample_heap
     = Throw RangeError sample_deque sample_heap
     /\ insertAt 4 (JNum 9) 3 sample_deque sample_heap
        = Throw RangeError sample_deque sample_heap
     /\ removeAt 4 3 sample_deque sample_heap
        = Throw RangeError sample_deque sample_heap)
  /\ (0 <= 3 < _length sample_deque ->
     (exists x, at_ 4 3 sample_deque sample_heap
                = Ret x sample_deque sample_heap)
     /\ (exists d' h', insertAt 4 (JNum 9) 3 sample_deque sample_heap
                       = Ret true d' h')
     /\ (exists x d' h', removeAt 4 3 sample_deque sample_heap = Ret x d' h'))
  /\ (_length sample_deque = 0 ->
     pop sample_deque sample_heap = Ret JNull sample_deque sample_heap
     /\ popleft sample_deque sample_heap = Ret JNull sample_deque sample_heap
     /\ getHead sample_deque sample_heap = Ret JNull sample_deque sample_heap
     /\ getTail sample_deque sample_heap = Ret JNull sample_deque sample_heap).
Proof.
  apply (strict_error_policy 4 (JNum 9) 3 sample_deque sample_heap).
  - vm_compute. reflexivity.
  - vm_compute. lia.
Defined.




(** Inside the iterator's [next], [this._length === 0] compares [undefined]
    with 0: the guard never holds. *)
Lemma iterator_length_guard :
  strict_eq (get_property iterator_object "_length") (JNum 0) = false.
Proof. reflexivity. Qed.

(** On a deque that holds elements, iteration yields them head to tail. *)
Lemma iterate_nonempty fuel d h :
  wf d h = true -> (Z.to_nat (_length d) < fuel)%nat -> _length d <> 0 ->
  exists vs, toArray fuel d h = Ret vs d h /\ iterate fuel d h = Ret vs d h.
Proof.
  intros Hwf Hf Hne. apply wf_Rep in Hwf.
  set (cs := chain_of d h) in *. set (vs := elements_of d h) in *.
  pose proof (Rep_length _ _ _ _ Hwf) as Hlen.
  exists vs. split; [eapply Rep_toArray; done|].
  rewrite (iterate_spec fuel _ _ _ _ Hwf) by lia.
  destruct Hwf as (_ & _ & _ & _ & _ & [[Hnil _]|[_ ->]]); [|done].
  rewrite Hnil in Hlen. simpl in Hlen. lia.
Qed.

(** C2 fails on the empty deque.  A deque just built by [new Deque()] has
    length 0 and [toArray()] is empty, yet the first call of the iterator's
    [next] reports [{value: null, done: false}]: iterating yields the one
    element [null], the value of the node an empty deque keeps. *)
Theorem iterate_empty_deque_yields_null :
  exists d h,
    new_Deque [] (mkDeque None None 0) ∅ = Ret d (mkDeque None None 0) h
    /\ _length d = 0
    /\ toArray 2 d h = Ret [] d h
    /\ iterator_next (head d) d h = Ret (mkIterResult JNull false, None) d h
    /\ iterate 2 d h = Ret [JNull] d h.
Proof. do 2 eexists. split_and!; vm_compute; reflexivity. Qed.

Lemma run_ops_frame os : forall fuel c h1 ccs cvs d cs vs,
  Rep c h1 ccs cvs -> Rep d h1 cs vs ->
  (forall l, l ∈ cs.*1 -> l ∉ ccs.*1) ->
  (length cvs + length os < fuel)%nat ->
  exists c' h2 ccs' cvs',
    run_ops fuel os c h1 = Ret tt c' h2 /\ Rep c' h2 ccs' cvs'
    /\ Rep d h2 cs vs /\ (forall l, l ∈ cs.*1 -> l ∉ ccs'.*1).
Proof.
  induction os as [|o os IH]; intros fuel c h1 ccs cvs d cs vs HRc HRd Hdisj Hf.
  - exists c, h1, ccs, cvs. by split_and!.
  - simpl in Hf.
    destruct (run_op_spec fuel o _ _ _ _ HRc)
      as [(r & c1 & h' & ccs1 & cvs1 & Hrun & HR1 & Hev & Hl & _)|Hthrow]; [lia| |].
    + destruct (Rep_frame _ _ _ _ _ _ _ Hev HRd Hdisj) as [HRd' Hdisj'].
      destruct (IH fuel c1 h' ccs1 cvs1 d cs vs)
        as (c' & h2 & ccs' & cvs' & Hrest & ?); try done; [lia|].
      exists c', h2, ccs', cvs'. split; [|done]. simpl. by rewrite Hrun.
    + destruct (IH fuel c h1 ccs cvs d cs vs)
        as (c' & h2 & ccs' & cvs' & Hrest & ?); try done; [lia|].
      exists c', h2, ccs', cvs'. split; [|done]. simpl. by rewrite Hthrow.
Qed.




Lemma follow_next_dlseg h p cs n :
  dlseg h p cs None -> (length cs <= n)%nat ->
  follow next h n (first_ref cs None) = cs.*1.
Proof.
  revert p n. induction cs as [|[c vc] cs IH]; intros p n Hseg Hn.
  - by destruct n.
  - destruct n as [|n]; [simpl in Hn; lia|]. destruct Hseg as [Hc Hseg].
    simpl in *. rewrite Hc. simpl. f_equal. eapply IH; [done|lia].
Qed.

Lemma follow_prev_dlseg h cs q n :
  dlseg h None cs q -> (length cs <= n)%nat ->
  follow prev h n (last_ref cs None) = rev cs.*1.
Proof.
  revert q n. induction cs as [|[c vc] cs IH] using rev_ind; intros q n Hseg Hn.
  - by destruct n.
  - rewrite length_app in Hn. simpl in Hn.
    destruct n as [|n]; [lia|].
    apply dlseg_app in Hseg as [Hseg (Hc & _)]. simpl in Hseg, Hc.
    rewrite last_ref_app, fmap_app, rev_app_distr. simpl. rewrite Hc. simpl.
    f_equal. eapply IH; [done|lia].
Qed.

Lemma Rep_structural d h cs vs : Rep d h cs vs -> structural_invariants d h.
Proof.
  intros HR. pose proof (Rep_length _ _ _ _ HR) as Hlen.
  unfold structural_invariants. split; [lia|]. split; [|split].
  - intros H0. destruct vs; [|simpl in Hlen; lia].
    apply Rep_nil_inv in HR as (s & -> & Hhd & Htl & _ & Hs).
    rewrite Hhd, Htl. split; [done|]. simpl. eauto.
  - intros H1. destruct vs as [|v [|? ?]]; simpl in Hlen; try lia.
    apply Rep_cons_inv in HR as (Hnd & Hseg & Hhd & Htl & _ & Hvs).
    destruct cs as [|[s w] [|? ?]]; simplify_eq/=. destruct Hseg as [Hs _].
    rewrite Hhd, Htl. split; [done|]. simpl. eauto.
  - intros H2. destruct vs as [|v vs]; [simpl in Hlen; lia|].
    apply Rep_cons_inv in HR as (Hnd & Hseg & Hhd & Htl & _ & Hvs).
    assert (length cs = Z.to_nat (_length d)) as Hn.
    { rewrite <- Hvs, length_fmap in Hlen. lia. }
    cbv zeta. rewrite <- Hn, Hhd, Htl.
    rewrite (follow_next_dlseg _ _ _ _ Hseg) by lia.
    rewrite (follow_prev_dlseg _ _ _ _ Hseg) by lia.
    destruct cs as [|[c vc] cs']; [simpl in Hn; lia|].
    destruct (snoc_inv ((c, vc) :: cs')) as (A & [t vt] & HA); [done|].
    split_and!.
    + destruct Hseg as [Hc _]. simpl. eauto.
    + rewrite HA in Hseg |- *. apply dlseg_app in Hseg as [_ (Ht & _)].
      rewrite last_ref_app. simpl in *. eauto.
    + by rewrite length_fmap.
    + rewrite HA, fmap_app, last_ref_app. simpl. by rewrite last_snoc.
    + done.
    + simpl. by rewrite last_snoc.
Qed.

(** A deque built by the constructor satisfies the invariants, whatever the
    store it is built in. *)
Lemma new_Deque_wf xs d0 h0 :
  exists d h, new_Deque xs d0 h0 = Ret d d0 h /\ wf d h = true
              /\ structural_invariants d h.
Proof.
  destruct (new_Deque_spec xs d0 h0) as (d & h & cs & Hrun & HR & _).
  exists d, h. split_and!; [done|by eapply Rep_wf|by eapply Rep_structural].
Qed.

(** C9. Every operation preserves the structural invariants: started on a
    well-formed deque it returns, or throws a RangeError having changed
    nothing, and the deque (and a deque it returns) is well-formed
    afterwards, which includes that the length is not negative, that an empty
    deque has one node holding [null] as both head and tail, and that from
    length 2 on following [next] from the head visits exactly [length] nodes
    ending at the tail and following [prev] from the tail visits the same
    nodes in reverse. *)
Theorem invariants_preserved fuel o d h :
  wf d h = true -> (Z.to_nat (_length d) < fuel)%nat ->
  structural_invariants d h
  /\ match run_op fuel o d h with
     | Ret r d' h' =>
         wf d' h' = true /\ structural_invariants d' h'
         /\ (forall c, r = RDeque c ->
               wf c h' = true /\ structural_invariants c h')
     | Throw e d' h' => e = RangeError /\ d' = d /\ h' = h
     | Diverge => False
     end.
Proof.
  intros Hwf Hf. apply wf_Rep in Hwf.
  pose proof (Rep_length _ _ _ _ Hwf) as Hlen.
  split; [by eapply Rep_structural|].
  destruct (run_op_spec fuel o _ _ _ _ Hwf)
    as [(r & d' & h' & cs' & vs' & -> & HR' & _ & _ & Hc)| ->]; [lia| |done].
  split_and!.
  - by eapply Rep_wf.
  - by eapply Rep_structural.
  - intros c Hr. destruct (Hc c Hr) as (ccs & cvs & HRc & _).
    split; [by eapply Rep_wf|by eapply Rep_structural].
Qed.

Lemma invariants_preserved_witness :
  structural_invariants sample_deque sample_heap
  /\ match run_op 4 (OpRemoveAt 1) sample_deque sample_heap with
     | Ret r d' h' =>
         wf d' h' = true /\ structural_invariants d' h'
         /\ (forall c, r = RDeque c ->
               wf c h' = true /\ structural_invariants c h')
     | Throw e d' h' =>
         e = RangeError /\ d' = sample_deque /\ h' = sample_heap
     | Diverge => False
     end.
Proof.
  apply (invariants_preserved 4 (OpRemoveAt 1) sample_deque sample_heap).
  - vm_compute. reflexivity.
  - vm_compute. lia.
Defined.

(** * Further properties of the methods *)

(** ** The two ends *)

Lemma stored_cases d h cs vs v :
  Rep d h cs vs ->
  (v <> JUndefined \/ _length d = 0 -> stored vs v = v)
  /\ (v = JUndefined -> _length d <> 0 -> stored vs v = JNull).
Proof.
  intros HR. apply Rep_length in HR. split.
  - intros [Hv|H0]; [by apply stored_defined|].
    destruct vs; [done|]. simpl in HR. lia.
  - intros -> Hne. destruct vs; [|done]. simpl in HR. lia.
Qed.

(** X1. On every deque [push(value)] appends one element [w]: [toArray()]
    gains [w] at the end, the length grows by one, and [getTail()] is then
    [w].  The element is [value] itself, except that a deque that is not
    empty takes an [undefined] as [null] (the new node is made by
    [new Node(value)], whose parameter defaults to [null]); an empty deque
    writes [value] into the node it keeps, [undefined] included. *)
Theorem push_appends fuel v d h :
  wf d h = true -> (Z.to_nat (_length d) < fuel)%nat ->
  exists vs w d' h',
    toArray fuel d h = Ret vs d h
    /\ push v d h = Ret tt d' h'
    /\ toArray fuel d' h' = Ret (vs ++ [w]) d' h'
    /\ _length d' = _length d + 1
    /\ getTail d' h' = Ret w d' h'
    /\ wf d' h' = true
    /\ (v <> JUndefined \/ _length d = 0 -> w = v)
    /\ (v = JUndefined -> _length d <> 0 -> w = JNull).
Proof.
  intros Hwf Hf. apply wf_Rep in Hwf.
  set (cs := chain_of d h) in *. set (vs := elements_of d h) in *.
  pose proof (Rep_length _ _ _ _ Hwf) as Hlen.
  destruct (stored_cases _ _ _ _ v Hwf) as [Hw1 Hw2].
  destruct (push_spec v _ _ _ _ Hwf) as (d' & h' & cs' & Hrun & HR' & _).
  pose proof (Rep_length _ _ _ _ HR') as Hlen'.
  rewrite length_app in Hlen'. simpl in Hlen'.
  exists vs, (stored vs v), d', h'. split_and!; try done.
  - eapply Rep_toArray; [done|lia].
  - eapply toArray_spec; [done|]. rewrite length_app. simpl. lia.
  - lia.
  - rewrite (getTail_spec _ _ _ _ HR'). by rewrite last_last.
  - by eapply Rep_wf.
Qed.

Lemma push_appends_witness :
  exists vs w d' h',
    toArray 4 sample_deque sample_heap = Ret vs sample_deque sample_heap
    /\ push (JNum 4) sample_deque sample_heap = Ret tt d' h'
    /\ toArray 4 d' h' = Ret (vs ++ [w]) d' h'
    /\ _length d' = _length sample_deque + 1
    /\ getTail d' h' = Ret w d' h'
    /\ wf d' h' = true
    /\ (JNum 4 <> JUndefined \/ _length sample_deque = 0 -> w = JNum 4)
    /\ (JNum 4 = JUndefined -> _length sample_deque <> 0 -> w = JNull).
Proof.
  apply (push_appends 4 (JNum 4) sample_deque sample_heap).
  - vm_compute. reflexivity.
  - vm_compute. lia.
Defined.

(** X2. On every deque [pushLeft(value)] prepends one element [w]:
    [toArray()] gains [w] at the front, the length grows by one, and
    [getHead()] is then [w].  The element is [value] itself, except that a
    deque that is not empty takes an [undefined] as [null] (the new node is
    made by [new Node(value)]). *)
Theorem pushLeft_prepends fuel v d h :
  wf d h = true -> (Z.to_nat (_length d) < fuel)%nat ->
  exists vs w d' h',
    toArray fuel d h = Ret vs d h
    /\ pushLeft v d h = Ret tt d' h'
    /\ toArray fuel d' h' = Ret (w :: vs) d' h'
    /\ _length d' = _length d + 1
    /\ getHead d' h' = Ret w d' h'
    /\ wf d' h' = true
    /\ (v <> JUndefined \/ _length d = 0 -> w = v)
    /\ (v = JUndefined -> _length d <> 0 -> w = JNull).
Proof.
  intros Hwf Hf. apply wf_Rep in Hwf.
  set (cs := chain_of d h) in *. set (vs := elements_of d h) in *.
  pose proof (Rep_length _ _ _ _ Hwf) as Hlen.
  destruct (stored_cases _ _ _ _ v Hwf) as [Hw1 Hw2].
  destruct (pushLeft_spec v _ _ _ _ Hwf) as (d' & h' & cs' & Hrun & HR' & _).
  pose proof (Rep_length _ _ _ _ HR') as Hlen'. simpl in Hlen'.
  exists vs, (stored vs v), d', h'. split_and!; try done.
  - eapply Rep_toArray; [done|lia].
  - eapply toArray_spec; [done|]. simpl. lia.
  - lia.
  - by rewrite (getHead_spec _ _ _ _ HR').
  - by eapply Rep_wf.
Qed.

Lemma pushLeft_prepends_witness :
  exists vs w d' h',
    toArray 4 sample_deque sample_heap = Ret vs sample_deque sample_heap
    /\ pushLeft (JNum 0) sample_deque sample_heap = Ret tt d' h'
    /\ toArray 4 d' h' = Ret (w :: vs) d' h'
    /\ _length d' = _length sample_deque + 1
    /\ getHead d' h' = Ret w d' h'
    /\ wf d' h' = true
    /\ (JNum 0 <> JUndefined \/ _length sample_deque = 0 -> w = JNum 0)
    /\ (JNum 0 = JUndefined -> _length sample_deque <> 0 -> w = JNull).
Proof.
  apply (pushLeft_prepends 4 (JNum 0) sample_deque sample_heap).
  - vm_compute. reflexivity.
  - vm_compute. lia.
Defined.

(** X3. [push(value)] followed immediately by [pop()] returns the element
    pushed and restores [toArray()] and the length; so does
    [pushLeft(value)] followed by [popleft()].  The element returned is
    [value], except that an [undefined] pushed on a deque that is not empty
    was stored as [null] and comes back as [null]. *)
Theorem push_pop_roundtrip fuel v d h :
  wf d h = true -> (Z.to_nat (_length d) < fuel)%nat ->
  exists vs w,
    toArray fuel d h = Ret vs d h
    /\ (exists d1 h1 d2 h2,
          push v d h = Ret tt d1 h1 /\ pop d1 h1 = Ret w d2 h2
          /\ toArray fuel d2 h2 = Ret vs d2 h2 /\ _length d2 = _length d)
    /\ (exists d1 h1 d2 h2,
          pushLeft v d h = Ret tt d1 h1 /\ popleft d1 h1 = Ret w d2 h2
          /\ toArray fuel d2 h2 = Ret vs d2 h2 /\ _length d2 = _length d)
    /\ (v <> JUndefined \/ _length d = 0 -> w = v)
    /\ (v = JUndefined -> _length d <> 0 -> w = JNull).
Proof.
  intros Hwf Hf. apply wf_Rep in Hwf.
  set (cs := chain_of d h) in *. set (vs := elements_of d h) in *.
  pose proof (Rep_length _ _ _ _ Hwf) as Hlen.
  destruct (stored_cases _ _ _ _ v Hwf) as [Hw1 Hw2].
  exists vs, (stored vs v). split_and!; try done.
  - eapply Rep_toArray; [done|lia].
  - destruct (push_spec v _ _ _ _ Hwf) as (d1 & h1 & cs1 & Hr1 & HR1 & _).
    destruct (pop_snoc _ _ _ _ _ HR1) as (d2 & h2 & cs2 & Hr2 & HR2 & _).
    pose proof (Rep_length _ _ _ _ HR2) as Hlen2.
    exists d1, h1, d2, h2. split_and!; try done; [|lia].
    eapply Rep_toArray; [done|lia].
  - destruct (pushLeft_spec v _ _ _ _ Hwf) as (d1 & h1 & cs1 & Hr1 & HR1 & _).
    destruct (popleft_cons _ _ _ _ _ HR1) as (d2 & h2 & cs2 & Hr2 & HR2 & _).
    pose proof (Rep_length _ _ _ _ HR2) as Hlen2.
    exists d1, h1, d2, h2. split_and!; try done; [|lia].
    eapply Rep_toArray; [done|lia].
Qed.

Lemma push_pop_roundtrip_witness :
  exists vs w,
    toArray 4 sample_deque sample_heap = Ret vs sample_deque sample_heap
    /\ (exists d1 h1 d2 h2,
          push (JNum 7) sample_deque sample_heap = Ret tt d1 h1
          /\ pop d1 h1 = Ret w d2 h2
          /\ toArray 4 d2 h2 = Ret vs d2 h2
          /\ _length d2 = _length sample_deque)
    /\ (exists d1 h1 d2 h2,
          pushLeft (JNum 7) sample_deque sample_heap = Ret tt d1 h1
          /\ popleft d1 h1 = Ret w d2 h2
          /\ toArray 4 d2 h2 = Ret vs d2 h2
          /\ _length d2 = _length sample_deque)
    /\ (JNum 7 <> JUndefined \/ _length sample_deque = 0 -> w = JNum 7)
    /\ (JNum 7 = JUndefined -> _length sample_deque <> 0 -> w = JNull).
Proof.
  apply (push_pop_roundtrip 4 (JNum 7) sample_deque sample_heap).
  - vm_compute. reflexivity.
  - vm_compute. lia.
Defined.

(** X4. On a deque that is not empty, [pop()] returns the last element of
    [toArray()] and removes it, and [popleft()] returns the first one and
    removes it; the length drops by one. *)
Theorem pop_popleft_remove_ends fuel d h :
  wf d h = true -> (Z.to_nat (_length d) < fuel)%nat -> 1 <= _length d ->
  exists vs,
    toArray fuel d h = Ret vs d h
    /\ (exists ws x d' h',
          vs = ws ++ [x] /\ pop d h = Ret x d' h'
          /\ toArray fuel d' h' = Ret ws d' h'
          /\ _length d' = _length d - 1 /\ wf d' h' = true)
    /\ (exists x ws d' h',
          vs = x :: ws /\ popleft d h = Ret x d' h'
          /\ toArray fuel d' h' = Ret ws d' h'
          /\ _length d' = _length d - 1 /\ wf d' h' = true).
Proof.
  intros Hwf Hf H1. apply wf_Rep in Hwf.
  set (cs := chain_of d h) in *. set (vs := elements_of d h) in *.
  pose proof (Rep_length _ _ _ _ Hwf) as Hlen.
  assert (vs <> []) as Hne by (intros E; rewrite E in Hlen; simpl in Hlen; lia).
  exists vs. split_and!.
  - eapply Rep_toArray; [done|lia].
  - destruct (snoc_inv vs Hne) as (ws & x & E). rewrite E in Hwf, Hlen.
    destruct (pop_snoc _ _ _ _ _ Hwf) as (d' & h' & cs' & Hr & HR' & _).
    pose proof (Rep_length _ _ _ _ HR') as Hlen'.
    rewrite length_app in Hlen. simpl in Hlen.
    exists ws, x, d', h'. split_and!; try done.
    + eapply Rep_toArray; [done|lia].
    + lia.
    + by eapply Rep_wf.
  - destruct vs as [|x ws] eqn:E; [done|].
    destruct (popleft_cons _ _ _ _ _ Hwf) as (d' & h' & cs' & Hr & HR' & _).
    pose proof (Rep_length _ _ _ _ HR') as Hlen'. simpl in Hlen.
    exists x, ws, d', h'. split_and!; try done.
    + eapply Rep_toArray; [done|lia].
    + lia.
    + by eapply Rep_wf.
Qed.

Lemma pop_popleft_remove_ends_witness :
  exists vs,
    toArray 4 sample_deque sample_heap = Ret vs sample_deque sample_heap
    /\ (exists ws x d' h',
          vs = ws ++ [x] /\ pop sample_deque sample_heap = Ret x d' h'
          /\ toArray 4 d' h' = Ret ws d' h'
          /\ _length d' = _length sample_deque - 1 /\ wf d' h' = true)
    /\ (exists x ws d' h',
          vs = x :: ws /\ popleft sample_deque sample_heap = Ret x d' h'
          /\ toArray 4 d' h' = Ret ws d' h'
          /\ _length d' = _length sample_deque - 1 /\ wf d' h' = true).
Proof.
  apply (pop_popleft_remove_ends 4 sample_deque sample_heap).
  - vm_compute. reflexivity.
  - vm_compute. lia.
  - simpl. lia.
Defined.

(** ** Construction *)

(** X5. [new Deque(iterable)] builds, in any store and without touching the
    nodes already there, a well-formed deque whose length is the number of
    elements the iterable produces and whose [toArray()] is that sequence
    with every [undefined] after the first element replaced by [null] (the
    first element is written into the kept node, the others are stored by
    [new Node]): the sequence itself when none of them is [undefined]. *)
Theorem new_Deque_elements fuel xs d0 h0 :
  (length xs < fuel)%nat ->
  exists d h,
    new_Deque xs d0 h0 = Ret d d0 h
    /\ wf d h = true
    /\ _length d = Z.of_nat (length xs)
    /\ toArray fuel d h = Ret (pushed xs) d h
    /\ (JUndefined ∉ drop 1 xs -> toArray fuel d h = Ret xs d h)
    /\ (forall l, is_Some (h0 !! l) -> h !! l = h0 !! l).
Proof.
  intros Hf.
  destruct (new_Deque_spec xs d0 h0) as (d & h & cs & Hrun & HR & Hev).
  assert (toArray fuel d h = Ret (pushed xs) d h) as Hto.
  { eapply toArray_spec; [done|]. rewrite pushed_length. lia. }
  exists d, h. split_and!; try done.
  - by eapply Rep_wf.
  - rewrite <- (pushed_length xs). by eapply Rep_length.
  - intros Hn. by rewrite Hto, pushed_defined.
  - intros l Hl. apply Hev; [|done]. simpl. set_solver.
Qed.

Lemma new_Deque_elements_witness :
  exists d h,
    new_Deque [JStr "a"; JUndefined; JNum 2] sample_deque sample_heap
    = Ret d sample_deque h
    /\ wf d h = true
    /\ _length d = Z.of_nat (length [JStr "a"; JUndefined; JNum 2])
    /\ toArray 4 d h = Ret (pushed [JStr "a"; JUndefined; JNum 2]) d h
    /\ (JUndefined ∉ drop 1 [JStr "a"; JUndefined; JNum 2] ->
        toArray 4 d h = Ret [JStr "a"; JUndefined; JNum 2] d h)
    /\ (forall l, is_Some (sample_heap !! l) -> h !! l = sample_heap !! l).
Proof.
  apply (new_Deque_elements 4 [JStr "a"; JUndefined; JNum 2]
           sample_deque sample_heap).
  simpl. lia.
Defined.

(** ** Indexed access *)

(** X6. For every index in range, [at(index)] returns the element of
    [toArray()] at that position and changes nothing, whichever end the
    traversal starts from. *)
Theorem at_is_toArray_lookup fuel index d h :
  wf d h = true -> (Z.to_nat (_length d) < fuel)%nat ->
  0 <= index < _length d ->
  exists vs x,
    toArray fuel d h = Ret vs d h
    /\ vs !! Z.to_nat index = Some x
    /\ at_ fuel index d h = Ret x d h.
Proof.
  intros Hwf Hf Hi. apply wf_Rep in Hwf.
  set (cs := chain_of d h) in *. set (vs := elements_of d h) in *.
  pose proof (Rep_length _ _ _ _ Hwf) as Hlen.
  destruct (Rep_index _ _ _ _ _ Hwf Hi) as (xs & y & ys & Hvs & ->).
  exists vs, y. split_and!.
  - eapply Rep_toArray; [done|lia].
  - rewrite Hvs, Nat2Z.id. apply list_lookup_middle. done.
  - rewrite Hvs in Hwf, Hlen. eapply at_spec; [done|lia].
Qed.

Lemma at_is_toArray_lookup_witness :
  exists vs x,
    toArray 4 sample_deque sample_heap = Ret vs sample_deque sample_heap
    /\ vs !! Z.to_nat 2 = Some x
    /\ at_ 4 2 sample_deque sample_heap = Ret x sample_deque sample_heap.
Proof.
  apply (at_is_toArray_lookup 4 2 sample_deque sample_heap).
  - vm_compute. reflexivity.
  - vm_compute. lia.
  - simpl. lia.
Defined.

(** X7. For every index in range, [insertAt(value, index)] turns
    [toArray()] into the same sequence with one element [w] inserted before
    position [index]: the elements before keep their place and the others
    move back by one.  The element is [value], or [null] when [value] is
    [undefined] (the node is made by [new Node(value)]). *)
Theorem insertAt_sequence fuel v index d h :
  wf d h = true -> (Z.to_nat (_length d) < fuel)%nat ->
  0 <= index < _length d ->
  exists vs w d' h',
    toArray fuel d h = Ret vs d h
    /\ insertAt fuel v index d h = Ret true d' h'
    /\ toArray fuel d' h'
       = Ret (take (Z.to_nat index) vs ++ w :: drop (Z.to_nat index) vs) d' h'
    /\ wf d' h' = true
    /\ (v <> JUndefined -> w = v)
    /\ (v = JUndefined -> w = JNull).
Proof.
  intros Hwf Hf Hi. apply wf_Rep in Hwf.
  set (cs := chain_of d h) in *. set (vs := elements_of d h) in *.
  pose proof (Rep_length _ _ _ _ Hwf) as Hlen.
  destruct (insertAt_in_range fuel v index _ _ _ _ Hwf Hf Hi)
    as (xs & y & ys & d' & h' & cs' & Hvs & -> & Hrun & HR' & _).
  pose proof (Rep_length _ _ _ _ HR') as Hlen'.
  rewrite Hvs in Hlen. rewrite length_app in Hlen, Hlen'. simpl in Hlen, Hlen'.
  exists vs, (default_null v), d', h'. split_and!; try done.
  - eapply Rep_toArray; [done|lia].
  - rewrite Hvs, Nat2Z.id, take_app_length, drop_app_length.
    eapply toArray_spec; [done|]. rewrite length_app. simpl. lia.
  - by eapply Rep_wf.
  - apply default_null_defined.
  - by intros ->.
Qed.

Lemma insertAt_sequence_witness :
  exists vs w d' h',
    toArray 4 sample_deque sample_heap = Ret vs sample_deque sample_heap
    /\ insertAt 4 (JNum 9) 1 sample_deque sample_heap = Ret true d' h'
    /\ toArray 4 d' h'
       = Ret (take (Z.to_nat 1) vs ++ w :: drop (Z.to_nat 1) vs) d' h'
    /\ wf d' h' = true
    /\ (JNum 9 <> JUndefined -> w = JNum 9)
    /\ (JNum 9 = JUndefined -> w = JNull).
Proof.
  apply (insertAt_sequence 4 (JNum 9) 1 sample_deque sample_heap).
  - vm_compute. reflexivity.
  - vm_compute. lia.
  - simpl. lia.
Defined.

(** X8. For every index in range, [removeAt(index)] returns the element of
    [toArray()] at that position and leaves the sequence without it; the
    length drops by one. *)
Theorem removeAt_sequence fuel index d h :
  wf d h = true -> (Z.to_nat (_length d) < fuel)%nat ->
  0 <= index < _length d ->
  exists vs x d' h',
    toArray fuel d h = Ret vs d h
    /\ vs !! Z.to_nat index = Some x
    /\ removeAt fuel index d h = Ret x d' h'
    /\ toArray fuel d' h'
       = Ret (take (Z.to_nat index) vs ++ drop (S (Z.to_nat index)) vs) d' h'
    /\ _length d' = _length d - 1
    /\ wf d' h' = true.
Proof.
  intros Hwf Hf Hi. apply wf_Rep in Hwf.
  set (cs := chain_of d h) in *. set (vs := elements_of d h) in *.
  pose proof (Rep_length _ _ _ _ Hwf) as Hlen.
  destruct (removeAt_in_range fuel index _ _ _ _ Hwf Hf Hi)
    as (xs & y & ys & d' & h' & cs' & Hvs & -> & Hrun & HR' & _).
  pose proof (Rep_length _ _ _ _ HR') as Hlen'.
  rewrite Hvs in Hlen. rewrite length_app in Hlen, Hlen'. simpl in Hlen, Hlen'.
  exists vs, y, d', h'. split_and!; try done.
  - eapply Rep_toArray; [done|lia].
  - rewrite Hvs, Nat2Z.id. by apply list_lookup_middle.
  - rewrite Hvs, Nat2Z.id, take_app_length.
    replace (S (length xs)) with (length (xs ++ [y]))
      by (rewrite length_app; simpl; lia).
    replace (xs ++ y :: ys) with ((xs ++ [y]) ++ ys) by by rewrite <- app_assoc.
    rewrite drop_app_length. eapply Rep_toArray; [done|lia].
  - lia.
  - by eapply Rep_wf.
Qed.

Lemma removeAt_sequence_witness :
  exists vs x d' h',
    toArray 4 sample_deque sample_heap = Ret vs sample_deque sample_heap
    /\ vs !! Z.to_nat 1 = Some x
    /\ removeAt 4 1 sample_deque sample_heap = Ret x d' h'
    /\ toArray 4 d' h'
       = Ret (take (Z.to_nat 1) vs ++ drop (S (Z.to_nat 1)) vs) d' h'
    /\ _length d' = _length sample_deque - 1
    /\ wf d' h' = true.
Proof.
  apply (removeAt_sequence 4 1 sample_deque sample_heap).
  - vm_compute. reflexivity.
  - vm_compute. lia.
  - simpl. lia.
Defined.

(** ** Peeking and clearing *)

(** X9. On a deque that is not empty, [getHead()] and [getTail()] return the
    first and the last element of [toArray()] and change nothing. *)
Theorem getHead_getTail_ends fuel d h :
  wf d h = true -> (Z.to_nat (_length d) < fuel)%nat -> 1 <= _length d ->
  exists vs x y,
    toArray fuel d h = Ret vs d h
    /\ vs !! O = Some x /\ last vs = Some y
    /\ getHead d h = Ret x d h
    /\ getTail d h = Ret y d h.
Proof.
  intros Hwf Hf H1. apply wf_Rep in Hwf.
  set (cs := chain_of d h) in *. set (vs := elements_of d h) in *.
  pose proof (Rep_length _ _ _ _ Hwf) as Hlen.
  assert (vs <> []) as Hne by (intros E; rewrite E in Hlen; simpl in Hlen; lia).
  destruct (snoc_inv vs Hne) as (ws & y & E).
  destruct vs as [|x vs'] eqn:Evs; [done|].
  exists (x :: vs'), x, y. split_and!.
  - eapply Rep_toArray; [done|lia].
  - done.
  - rewrite E. apply last_snoc.
  - by rewrite (getHead_spec _ _ _ _ Hwf).
  - rewrite (getTail_spec _ _ _ _ Hwf), E. by rewrite last_last.
Qed.

Lemma getHead_getTail_ends_witness :
  exists vs x y,
    toArray 4 sample_deque sample_heap = Ret vs sample_deque sample_heap
    /\ vs !! O = Some x /\ last vs = Some y
    /\ getHead sample_deque sample_heap = Ret x sample_deque sample_heap
    /\ getTail sample_deque sample_heap = Ret y sample_deque sample_heap.
Proof.
  apply (getHead_getTail_ends 4 sample_deque sample_heap).
  - vm_compute. reflexivity.
  - vm_compute. lia.
  - simpl. lia.
Defined.

Lemma clear_run d h cs vs :
  Rep d h cs vs ->
  exists c nd,
    head d = Some c /\ h !! c = Some nd
    /\ clear d h
       = Ret tt (mkDeque (Some c) (Some c) 0)
           (<[c := mkNode JNull (prev nd) None]> h).
Proof.
  intros HR.
  assert (exists c nd, head d = Some c /\ h !! c = Some nd) as (c & nd & Hhd & Hc).
  { destruct vs.
    - apply Rep_nil_inv in HR as (s & -> & Hhd & Htl & Hlen & Hs). eauto.
    - apply Rep_cons_inv in HR as (Hnd & Hseg & Hhd & Htl & Hlen & Hvs).
      destruct cs as [|[c vc] B]; simplify_eq/=. destruct Hseg as [Hc _].
      eauto. }
  exists c, nd. split_and!; try done.
  unfold clear. mrun. by rewrite insert_insert_eq.
Qed.

(** X10. [clear()] empties every deque in place: the length becomes 0,
    [toArray()] is empty, [head] stays the node it was and becomes the tail
    as well, no node is allocated, and the result is a well-formed empty
    deque ([getHead()] is [null]). *)
Theorem clear_empties_in_place fuel d h :
  wf d h = true ->
  exists d' h',
    clear d h = Ret tt d' h'
    /\ _length d' = 0
    /\ head d' = head d /\ tail d' = head d
    /\ dom h' = dom h
    /\ toArray fuel d' h' = Ret [] d' h'
    /\ getHead d' h' = Ret JNull d' h'
    /\ wf d' h' = true.
Proof.
  intros Hwf. apply wf_Rep in Hwf.
  destruct (clear_run _ _ _ _ Hwf) as (c & nd & Hhd & Hc & Hrun).
  destruct (clear_spec _ _ _ _ Hwf) as (d' & h' & cs' & Hrun' & HR' & _).
  rewrite Hrun in Hrun'. injection Hrun' as <- <-.
  eexists _, _. split; [exact Hrun|]. split_and!; try done.
  - apply dom_insert_lookup_L. eauto.
  - by rewrite (getHead_spec _ _ _ _ HR').
  - by eapply Rep_wf.
Qed.

Lemma clear_empties_in_place_witness :
  exists d' h',
    clear sample_deque sample_heap = Ret tt d' h'
    /\ _length d' = 0
    /\ head d' = head sample_deque /\ tail d' = head sample_deque
    /\ dom h' = dom sample_heap
    /\ toArray 1 d' h' = Ret [] d' h'
    /\ getHead d' h' = Ret JNull d' h'
    /\ wf d' h' = true.
Proof.
  apply (clear_empties_in_place 1 sample_deque sample_heap).
  vm_compute. reflexivity.
Defined.

(** X11. The node of an empty deque is reused: on an empty deque
    [push(value)] (and [pushLeft(value)]) allocates nothing and keeps [head]
    and [tail], and the [pop()] (or [popleft()]) that follows returns
    [value] and puts the deque object and the store back exactly as they
    were. *)
Theorem empty_node_is_reused v d h :
  wf d h = true -> _length d = 0 ->
  (exists d1 h1,
     push v d h = Ret tt d1 h1 /\ dom h1 = dom h
     /\ head d1 = head d /\ tail d1 = tail d
     /\ pop d1 h1 = Ret v d h)
  /\ (exists d1 h1,
     pushLeft v d h = Ret tt d1 h1 /\ dom h1 = dom h
     /\ head d1 = head d /\ tail d1 = tail d
     /\ popleft d1 h1 = Ret v d h).
Proof.
  intros Hwf H0. apply wf_Rep in Hwf.
  pose proof (Rep_length _ _ _ _ Hwf) as Hlen.
  destruct (elements_of d h) as [|? ?]; [|simpl in Hlen; lia].
  apply Rep_nil_inv in Hwf as (s & _ & Hhd & Htl & _ & Hs).
  assert (dom (<[s := mkNode v None None]> h) = dom h) as Hdom
    by (apply dom_insert_lookup_L; eauto).
  assert (<[s := mkNode JNull None None]> (<[s := mkNode v None None]> h) = h)
    as Hback by (rewrite insert_insert_eq; by apply insert_id).
  destruct d as [hd tl len]. simpl in *. subst.
  split.
  - eexists _, _. split; [unfold push; mrun; simpl; mrun; reflexivity|].
    split_and!; try done.
    unfold pop. mrun. simpl. mrun. by rewrite Hback.
  - eexists _, _. split; [unfold pushLeft; mrun; simpl; mrun; reflexivity|].
    split_and!; try done.
    unfold popleft. mrun. simpl. mrun. by rewrite Hback.
Qed.

Lemma empty_node_is_reused_witness :
  (exists d1 h1,
     push (JNum 5) (mkDeque (Some 1%positive) (Some 1%positive) 0)
       {[1%positive := mkNode JNull None None]} = Ret tt d1 h1
     /\ dom h1 = dom ({[1%positive := mkNode JNull None None]}
                        : gmap positive Node)
     /\ head d1 = head (mkDeque (Some 1%positive) (Some 1%positive) 0)
     /\ tail d1 = tail (mkDeque (Some 1%positive) (Some 1%positive) 0)
     /\ pop d1 h1
        = Ret (JNum 5) (mkDeque (Some 1%positive) (Some 1%positive) 0)
            {[1%positive := mkNode JNull None None]})
  /\ (exists d1 h1,
     pushLeft (JNum 5) (mkDeque (Some 1%positive) (Some 1%positive) 0)
       {[1%positive := mkNode JNull None None]} = Ret tt d1 h1
     /\ dom h1 = dom ({[1%positive := mkNode JNull None None]}
                        : gmap positive Node)
     /\ head d1 = head (mkDeque (Some 1%positive) (Some 1%positive) 0)
     /\ tail d1 = tail (mkDeque (Some 1%positive) (Some 1%positive) 0)
     /\ popleft d1 h1
        = Ret (JNum 5) (mkDeque (Some 1%positive) (Some 1%positive) 0)
            {[1%positive := mkNode JNull None None]}).
Proof.
  apply (empty_node_is_reused (JNum 5)
           (mkDeque (Some 1%positive) (Some 1%positive) 0)
           {[1%positive := mkNode JNull None None]}).
  - vm_compute. reflexivity.
  - reflexivity.
Defined.

(** ** Reversal and rotation *)

Lemma hd_rev_last (vs : list jsval) : hd JNull (rev vs) = List.last vs JNull.
Proof.
  destruct vs as [|x vs _] using rev_ind; [done|].
  rewrite rev_app_distr, last_last. done.
Qed.

Lemma last_rev_hd (vs : list jsval) : List.last (rev vs) JNull = hd JNull vs.
Proof. destruct vs as [|x vs]; [done|]. simpl. by rewrite last_last. Qed.

(** X12. [reverse()] exchanges the two ends: on every deque [getHead()]
    after it is what [getTail()] was before, and [getTail()] after it is
    what [getHead()] was. *)
Theorem reverse_swaps_ends fuel d h :
  wf d h = true -> (Z.to_nat (_length d) < fuel)%nat ->
  exists x y d' h',
    getHead d h = Ret x d h /\ getTail d h = Ret y d h
    /\ reverse fuel d h = Ret tt d' h'
    /\ getHead d' h' = Ret y d' h' /\ getTail d' h' = Ret x d' h'
    /\ _length d' = _length d.
Proof.
  intros Hwf Hf. apply wf_Rep in Hwf.
  set (cs := chain_of d h) in *. set (vs := elements_of d h) in *.
  pose proof (Rep_length _ _ _ _ Hwf) as Hlen.
  destruct (reverse_spec fuel _ _ _ _ Hwf) as (d' & h' & cs' & Hrun & HR' & _);
    [lia|].
  pose proof (Rep_length _ _ _ _ HR') as Hlen'. rewrite length_rev in Hlen'.
  exists (hd JNull vs), (List.last vs JNull), d', h'. split_and!; try done.
  - by apply getHead_spec with cs.
  - by apply getTail_spec with cs.
  - rewrite (getHead_spec _ _ _ _ HR'). by rewrite hd_rev_last.
  - rewrite (getTail_spec _ _ _ _ HR'). by rewrite last_rev_hd.
  - lia.
Qed.

Lemma reverse_swaps_ends_witness :
  exists x y d' h',
    getHead sample_deque sample_heap = Ret x sample_deque sample_heap
    /\ getTail sample_deque sample_heap = Ret y sample_deque sample_heap
    /\ reverse 4 sample_deque sample_heap = Ret tt d' h'
    /\ getHead d' h' = Ret y d' h' /\ getTail d' h' = Ret x d' h'
    /\ _length d' = _length sample_deque.
Proof.
  apply (reverse_swaps_ends 4 sample_deque sample_heap).
  - vm_compute. reflexivity.
  - vm_compute. lia.
Defined.

Lemma iter_cycl1_shift j (vs : list jsval) :
  (j <= length vs)%nat -> Nat.iter j cycl1 vs = drop j vs ++ take j vs.
Proof.
  induction j as [|j IH]; intros Hj.
  - simpl. by rewrite drop_0, app_nil_r.
  - simpl. rewrite IH by lia.
    destruct (lookup_lt_is_Some_2 vs j) as [x Hx]; [lia|].
    rewrite (drop_S _ _ _ Hx), (take_S_r _ _ _ Hx). simpl.
    by rewrite <- app_assoc.
Qed.

Lemma iter_cycr1_shift j (vs : list jsval) :
  (j <= length vs)%nat ->
  Nat.iter j cycr1 vs
  = drop (length vs - j) vs ++ take (length vs - j) vs.
Proof.
  induction j as [|j IH]; intros Hj.
  - simpl. rewrite Nat.sub_0_r, drop_all, firstn_all. done.
  - simpl. rewrite IH by lia.
    destruct (lookup_lt_is_Some_2 vs (length vs - S j)) as [x Hx]; [lia|].
    replace (length vs - j)%nat with (S (length vs - S j)) by lia.
    rewrite (take_S_r _ _ _ Hx), app_assoc, cycr1_snoc.
    by rewrite (drop_S _ _ _ Hx).
Qed.

Lemma mod_of_congruent (a b n : Z) :
  0 < n -> (a - b) mod n = 0 -> (- b) mod n = (- a) mod n.
Proof.
  intros Hn Hm. apply Z.mod_divide in Hm as [c Hc]; [|lia].
  replace (- b) with (- a + c * n) by lia. apply Z_mod_plus_full.
Qed.

Lemma cyc_model_shift k (vs : list jsval) :
  vs <> [] ->
  cyc_model k vs
  = drop (Z.to_nat ((- k) mod Z.of_nat (length vs))) vs
    ++ take (Z.to_nat ((- k) mod Z.of_nat (length vs))) vs.
Proof.
  intros Hne. set (n := Z.of_nat (length vs)).
  assert (0 < n) as Hn by (destruct vs; [done|unfold n; simpl; lia]).
  unfold cyc_model. destruct (Z.eqb_spec k 0) as [->|Hk].
  { rewrite Z.mod_0_l by lia. simpl. by rewrite drop_0, app_nil_r. }
  fold n. destruct (opt_steps_value k n Hn) as (s & -> & _ & Hmod & Habs).
  assert (n / 2 < n) as Hhalf by (apply Z.div_lt; lia).
  rewrite (mod_of_congruent s k n Hn Hmod). simpl.
  destruct (Z.gtb_spec s 0) as [Hpos|Hneg].
  - rewrite iter_cycr1_shift by lia.
    replace ((- s) mod n) with (n - s).
    2:{ replace (- s) with (n - s + (-1) * n) by lia.
        rewrite Z_mod_plus_full. symmetry. apply Z.mod_small. lia. }
    replace (length vs - Z.to_nat s)%nat with (Z.to_nat (n - s)) by lia.
    done.
  - rewrite iter_cycl1_shift by lia.
    rewrite (Z.mod_small (- s) n) by lia.
    by replace (Z.to_nat (Z.abs s)) with (Z.to_nat (- s)) by lia.
Qed.

Lemma rotate_model_multiple k (vs : list jsval) :
  vs <> [] -> k mod Z.of_nat (length vs) = 0 -> rotate_model k vs = vs.
Proof.
  intros Hne Hz. set (n := Z.of_nat (length vs)) in *.
  assert (0 < n) as Hn by (destruct vs; [done|unfold n; simpl; lia]).
  unfold rotate_model. destruct (k =? 0); [done|]. fold n.
  destruct (opt_steps_value k n Hn) as (s & -> & _ & Hmod & Habs).
  assert (n / 2 < n) as Hhalf by (apply Z.div_lt; lia).
  assert (s = 0) as ->; [|done].
  apply Z.mod_divide in Hz as [c Hc]; [|lia].
  apply Z.mod_divide in Hmod as [c' Hc']; [|lia].
  assert (s = (c + c') * n) as Hs by lia.
  assert (c + c' = 0) by nia. lia.
Qed.

(** X13. On a deque that is not empty, [rotate(steps)] is the cyclic shift
    to the right by [steps] places, whatever the sign and the size of
    [steps]: the new sequence is the old one cut after its first
    [(-steps) mod length] elements with the two parts exchanged, each
    element being the original one or, where the original was [undefined],
    possibly [null] (an element that is moved is inserted again through
    [new Node]); on a deque that holds no [undefined] it is exactly that
    sequence.  A multiple of the length changes nothing. *)
Theorem rotate_is_cyclic_shift fuel steps d h :
  wf d h = true -> (Z.to_nat (_length d) < fuel)%nat -> 1 <= _length d ->
  exists vs vs' d' h',
    toArray fuel d h = Ret vs d h
    /\ rotate steps d h = Ret tt d' h'
    /\ toArray fuel d' h' = Ret vs' d' h'
    /\ Forall2 became
         (drop (Z.to_nat ((- steps) mod _length d)) vs
          ++ take (Z.to_nat ((- steps) mod _length d)) vs) vs'
    /\ (JUndefined ∉ vs ->
        vs' = drop (Z.to_nat ((- steps) mod _length d)) vs
              ++ take (Z.to_nat ((- steps) mod _length d)) vs)
    /\ _length d' = _length d
    /\ (steps mod _length d = 0 -> vs' = vs).
Proof.
  intros Hwf Hf H1. apply wf_Rep in Hwf.
  set (cs := chain_of d h) in *. set (vs := elements_of d h) in *.
  pose proof (Rep_length _ _ _ _ Hwf) as Hlen.
  assert (vs <> []) as Hne by (intros E; rewrite E in Hlen; simpl in Hlen; lia).
  destruct (rotate_spec steps _ _ _ _ Hwf) as (d' & h' & cs' & Hrun & HR' & _).
  pose proof (Rep_length _ _ _ _ HR') as Hlen'.
  rewrite rotate_model_length in Hlen'.
  pose proof (cyc_model_became steps vs vs (Forall2_became_refl vs)) as Hb.
  rewrite (cyc_model_shift steps vs Hne), <- Hlen in Hb.
  exists vs, (rotate_model steps vs), d', h'. split_and!; try done.
  - eapply Rep_toArray; [done|lia].
  - eapply Rep_toArray; [done|lia].
  - intros Hn. apply became_defined; [done|]. intros Hin. apply Hn.
    rewrite <- (take_drop (Z.to_nat ((- steps) mod _length d)) vs).
    rewrite elem_of_app in Hin |- *. tauto.
  - lia.
  - intros Hz. apply rotate_model_multiple; [done|]. by rewrite <- Hlen.
Qed.

Lemma rotate_is_cyclic_shift_witness :
  exists vs vs' d' h',
    toArray 4 sample_deque sample_heap = Ret vs sample_deque sample_heap
    /\ rotate (-7) sample_deque sample_heap = Ret tt d' h'
    /\ toArray 4 d' h' = Ret vs' d' h'
    /\ Forall2 became
         (drop (Z.to_nat ((- -7) mod _length sample_deque)) vs
          ++ take (Z.to_nat ((- -7) mod _length sample_deque)) vs) vs'
    /\ (JUndefined ∉ vs ->
        vs' = drop (Z.to_nat ((- -7) mod _length sample_deque)) vs
              ++ take (Z.to_nat ((- -7) mod _length sample_deque)) vs)
    /\ _length d' = _length sample_deque
    /\ ((-7) mod _length sample_deque = 0 -> vs' = vs).
Proof.
  apply (rotate_is_cyclic_shift 4 (-7) sample_deque sample_heap).
  - vm_compute. reflexivity.
  - vm_compute. lia.
  - simpl. lia.
Defined.

(** ** Iteration *)

(** X14. Iterating a deque that is not empty yields exactly the elements of
    [toArray()], head to tail, and changes nothing; every call of
    [Symbol.iterator] starts again at the head, so a second iteration yields
    the same sequence. *)
Theorem iteration_yields_elements fuel d h :
  wf d h = true -> (Z.to_nat (_length d) < fuel)%nat -> 1 <= _length d ->
  exists vs,
    toArray fuel d h = Ret vs d h
    /\ (vs_it <- iterate fuel ;; vs_again <- iterate fuel ;;
        ret (vs_it, vs_again)) d h = Ret (vs, vs) d h.
Proof.
  intros Hwf Hf H1. apply wf_Rep in Hwf.
  set (cs := chain_of d h) in *. set (vs := elements_of d h) in *.
  pose proof (Rep_length _ _ _ _ Hwf) as Hlen.
  exists vs. split; [eapply Rep_toArray; done|].
  assert (iterate fuel d h = Ret vs d h) as Hit.
  { rewrite (iterate_spec fuel _ _ _ _ Hwf) by lia.
    destruct Hwf as (_ & _ & _ & _ & _ & [[Hnil _]|[_ ->]]); [|done].
    rewrite Hnil in Hlen. simpl in Hlen. lia. }
  unfold bind. rewrite Hit, Hit. done.
Qed.

Lemma iteration_yields_elements_witness :
  exists vs,
    toArray 4 sample_deque sample_heap = Ret vs sample_deque sample_heap
    /\ (vs_it <- iterate 4 ;; vs_again <- iterate 4 ;;
        ret (vs_it, vs_again)) sample_deque sample_heap
       = Ret (vs, vs) sample_deque sample_heap.
Proof.
  apply (iteration_yields_elements 4 sample_deque sample_heap).
  - vm_compute. reflexivity.
  - vm_compute. lia.
  - simpl. lia.
Defined.

(** ** The second implementation *)

Lemma permissive_append_is_push v : Permissive.append v = push v.
Proof. reflexivity. Qed.

Lemma permissive_prepend_is_pushLeft v : Permissive.prepend v = pushLeft v.
Proof. reflexivity. Qed.

Lemma permissive_at_loop_locate fuel idx cur ci d h :
  Permissive.at_loop fuel idx cur ci d h =
  (r <- locate fuel false 1 idx cur ci ;;
   match r with
   | None => ret JUndefined
   | Some _ => nd <- load r ;; ret (val nd)
   end) d h.
Proof.
  revert cur ci d h. induction fuel as [|fuel IH]; intros cur ci d h.
  - by destruct cur.
  - destruct cur as [c|]; [|done]. simpl.
    destruct (ci =? idx); [done|].
    unfold bind at 1. rewrite bind_assoc. unfold bind at 1.
    destruct (load (Some c) d h); first [done | apply IH].
Qed.

Lemma permissive_insertAt_loop_locate fuel idx newNode cur ci d h :
  Permissive.insertAt_loop fuel idx newNode cur ci d h =
  (r <- locate fuel false 1 idx cur ci ;;
   match r with
   | None => ret JUndefined
   | Some _ =>
       nd <- load r ;;
       set_next (prev nd) newNode ;;;
       set_prev newNode (prev nd) ;;;
       set_next newNode r ;;;
       set_prev r newNode ;;;
       add_length 1 ;;;
       ret (JBool true)
   end) d h.
Proof.
  revert cur ci d h. induction fuel as [|fuel IH]; intros cur ci d h.
  - by destruct cur.
  - destruct cur as [c|]; [|done]. simpl.
    destruct (ci =? idx); [done|]. simpl.
    unfold bind at 1. rewrite bind_assoc. unfold bind at 1.
    destruct (load (Some c) d h); first [done | apply IH].
Qed.


Lemma permissive_at_spec fuel d h cs xs y ys :
  Rep d h cs (xs ++ y :: ys) ->
  (length (xs ++ y :: ys) <= fuel)%nat ->
  Permissive.at_ fuel (Z.of_nat (length xs)) d h = Ret y d h.
Proof.
  intros HR Hf.
  apply Rep_split in HR
    as (A & c & B & -> & HA & HB & Hnd & Hseg & Hhd & Htl & Hlen & HlA).
  assert (length (xs ++ y :: ys) = length (A ++ (c, y) :: B)) as Hl.
  { rewrite <- HA, <- HB, !length_app; simpl. by rewrite !length_fmap. }
  rewrite Hl in Hf. rewrite <- HlA.
  pose proof (locate_index h A (c, y) B fuel d false Hseg Hf) as HL.
  apply dlseg_app in Hseg as [_ (Hc & _)]. simpl in Hc.
  unfold Permissive.at_. mrun.
  rewrite in_range_1 by (rewrite length_app; simpl; lia).
  mrun. rewrite permissive_at_loop_locate.
  unfold bind at 1. cbv iota in HL. rewrite HL. mrun. done.
Qed.

Lemma both_insertAt_interior fuel v d h cs xs x y ys :
  Rep d h cs ((xs ++ [x]) ++ y :: ys) ->
  (length ((xs ++ [x]) ++ y :: ys) <= fuel)%nat ->
  exists d' h',
    insertAt fuel v (Z.of_nat (length (xs ++ [x]))) d h = Ret true d' h'
    /\ Permissive.insertAt fuel v (Z.of_nat (length (xs ++ [x]))) d h
       = Ret (JBool true) d' h'.
Proof.
  intros HR Hf.
  rewrite <- app_assoc in HR. simpl in HR.
  apply Rep_split in HR
    as (A & a & B0 & -> & HA & HB & Hnd & Hseg & Hhd & Htl & Hlen & HlA).
  destruct B0 as [|[c vc] B]; simplify_eq/=.
  replace (A ++ (a, x) :: (c, y) :: B)
    with ((A ++ [(a, x)]) ++ (c, y) :: B) in * by by rewrite <- app_assoc.
  replace (length ((A.*2 ++ [x]) ++ y :: B.*2))
    with (length ((A ++ [(a, x)]) ++ (c, y) :: B)) in Hf.
  2:{ rewrite !length_app; simpl. by rewrite !length_fmap. }
  replace (length (A.*2 ++ [x])) with (length (A ++ [(a, x)])).
  2:{ rewrite !length_app; simpl. by rewrite !length_fmap. }
  pose proof (fresh_lookup h) as Hfl.
  pose proof (dlseg_fresh _ _ _ _ Hseg) as Hfr.
  remember (fresh (dom h)) as l eqn:Heql.
  set (h1 := <[l := mkNode (default_null v) None None]> h).
  assert (dlseg h1 None ((A ++ [(a, x)]) ++ (c, y) :: B) None) as Hseg1.
  { eapply dlseg_agree; [|exact Hseg]. intros z Hz. unfold h1.
    rewrite lookup_insert_ne; [done|]. by intros ->. }
  rewrite !dlseg_app in Hseg. simpl in Hseg.
  destruct Hseg as ((HsA & Ha & _) & Hc & HsB).
  list_norm_in Ha. list_norm_in Hc.
  nodup_hyps. list_norm_in Hfr.
  assert (a <> l /\ c <> l /\ a <> c) as (? & ? & ?) by set_solver.
  assert (h1 !! c = Some (mkNode y (Some a) (first_ref B None))) as Hc1.
  { unfold h1. by rewrite lookup_insert_ne. }
  assert (h1 !! a = Some (mkNode x (last_ref A None) (Some c))) as Ha1.
  { unfold h1. by rewrite lookup_insert_ne. }
  assert (h1 !! l = Some (mkNode (default_null v) None None)) as Hl1.
  { unfold h1. by rewrite lookup_insert_eq. }
  pose proof (locate_index h1 _ _ _ fuel d false Hseg1 Hf) as HLf.
  cbv iota in HLf.
  eexists _, _. split.
  - unfold insertAt. mrun.
    rewrite in_range_2 by (rewrite !length_app; simpl; lia).
    rewrite eqb_false_of by (rewrite !length_app; simpl; lia).
    mrun. fold h1. set (pm := _ >? _).
    pose proof (locate_index h1 _ _ _ fuel d pm Hseg1 Hf) as HL.
    clear HsA HsB Hnd Hfr.
    destruct pm; cbv iota in HL; mrun; rewrite insertAt_loop_locate;
      unfold bind at 1; rewrite HL; clear HL HLf; mrun; reflexivity.
  - unfold Permissive.insertAt. mrun.
    rewrite in_range_2 by (rewrite !length_app; simpl; lia).
    rewrite eqb_false_of by (rewrite !length_app; simpl; lia).
    mrun. fold h1. rewrite permissive_insertAt_loop_locate.
    unfold bind at 1. rewrite HLf. clear HLf HsA HsB Hnd Hfr.
    mrun. reflexivity.
Qed.


(** X15. The two [at] of the file agree on every index in range: both
    return the element at that position and change nothing.  On an index out
    of range the first throws a RangeError and the second returns [null],
    again changing nothing. *)
Theorem both_at_agree fuel index d h :
  wf d h = true -> (Z.to_nat (_length d) < fuel)%nat ->
  (0 <= index < _length d ->
     exists x, at_ fuel index d h = Ret x d h
               /\ Permissive.at_ fuel index d h = Ret x d h)
  /\ (index < 0 \/ _length d <= index ->
     at_ fuel index d h = Throw RangeError d h
     /\ Permissive.at_ fuel index d h = Ret JNull d h).
Proof.
  intros Hwf Hf. apply wf_Rep in Hwf.
  pose proof (Rep_length _ _ _ _ Hwf) as Hlen.
  split.
  - intros Hi. destruct (Rep_index _ _ _ _ _ Hwf Hi) as (xs & y & ys & Hvs & ->).
    rewrite Hvs in Hwf, Hlen. exists y. split.
    + eapply at_spec; [done|lia].
    + eapply permissive_at_spec; [done|lia].
  - intros Hi. split; [by apply at_range_error|].
    unfold Permissive.at_. mred.
    replace ((index >=? _length d) || (index <? 0)) with true; [done|].
    symmetry. apply orb_true_iff. lia.
Qed.

Lemma both_at_agree_witness :
  (0 <= 2 < _length sample_deque ->
     exists x, at_ 4 2 sample_deque sample_heap = Ret x sample_deque sample_heap
               /\ Permissive.at_ 4 2 sample_deque sample_heap
                  = Ret x sample_deque sample_heap)
  /\ (2 < 0 \/ _length sample_deque <= 2 ->
     at_ 4 2 sample_deque sample_heap
     = Throw RangeError sample_deque sample_heap
     /\ Permissive.at_ 4 2 sample_deque sample_heap
        = Ret JNull sample_deque sample_heap).
Proof.
  apply (both_at_agree 4 2 sample_deque sample_heap).
  - vm_compute. reflexivity.
  - vm_compute. lia.
Defined.

(** X16. The two [insertAt] of the file do the same thing on every index in
    range: both return [true] and leave the very same deque and store.  On
    an index out of range the first throws a RangeError and the second
    returns [false]; neither changes anything. *)
Theorem both_insertAt_agree fuel v index d h :
  wf d h = true -> (Z.to_nat (_length d) < fuel)%nat ->
  (0 <= index < _length d ->
     exists d' h',
       insertAt fuel v index d h = Ret true d' h'
       /\ Permissive.insertAt fuel v index d h = Ret (JBool true) d' h')
  /\ (index < 0 \/ _length d <= index ->
     insertAt fuel v index d h = Throw RangeError d h
     /\ Permissive.insertAt fuel v index d h = Ret (JBool false) d h).
Proof.
  intros Hwf Hf. apply wf_Rep in Hwf.
  pose proof (Rep_length _ _ _ _ Hwf) as Hlen.
  split.
  - intros Hi. destruct (Rep_index _ _ _ _ _ Hwf Hi) as (xs & y & ys & Hvs & ->).
    rewrite Hvs in Hwf, Hlen.
    destruct xs as [|x xs _] using rev_ind.
    + destruct (pushLeft_spec v _ _ _ _ Hwf) as (d' & h' & cs' & Hp & _).
      exists d', h'. split.
      * unfold insertAt. mrun. rewrite in_range_2 by (simpl in *; lia).
        simpl. mrun. by rewrite Hp.
      * unfold Permissive.insertAt. mrun.
        rewrite in_range_2 by (simpl in *; lia).
        simpl. mrun. rewrite permissive_prepend_is_pushLeft. by rewrite Hp.
    + eapply both_insertAt_interior; [done|lia].
  - intros Hi. split; [by apply insertAt_range_error|].
    unfold Permissive.insertAt. mred.
    replace ((index <? 0) || (index >=? _length d)) with true; [done|].
    symmetry. apply orb_true_iff. lia.
Qed.

Lemma both_insertAt_agree_witness :
  (0 <= 2 < _length sample_deque ->
     exists d' h',
       insertAt 4 (JNum 9) 2 sample_deque sample_heap = Ret true d' h'
       /\ Permissive.insertAt 4 (JNum 9) 2 sample_deque sample_heap
          = Ret (JBool true) d' h')
  /\ (2 < 0 \/ _length sample_deque <= 2 ->
     insertAt 4 (JNum 9) 2 sample_deque sample_heap
     = Throw RangeError sample_deque sample_heap
     /\ Permissive.insertAt 4 (JNum 9) 2 sample_deque sample_heap
        = Ret (JBool false) sample_deque sample_heap).
Proof.
  apply (both_insertAt_agree 4 (JNum 9) 2 sample_deque sample_heap).
  - vm_compute. reflexivity.
  - vm_compute. lia.
Defined.



Lemma contains_loop_spec h p cs fuel v d :
  dlseg h p cs None -> (length cs <= fuel)%nat ->
  Permissive.contains_loop fuel v (first_ref cs None) d h
  = Ret (existsb (fun x => strict_eq x v) cs.*2) d h.
Proof.
  revert p fuel. induction cs as [|[c vc] cs IH]; intros p fuel Hseg Hf.
  - by destruct fuel.
  - destruct fuel as [|fuel]; [simpl in Hf; lia|].
    destruct Hseg as [Hc Hseg]. simpl in Hc, Hseg, Hf. simpl. mrun.
    destruct (strict_eq vc v); [done|]. mrun.
    rewrite (IH (Some c)); [done|done|lia].
Qed.

Lemma find_loop_spec h p cs fuel v k d :
  dlseg h p cs None -> (length cs <= fuel)%nat ->
  exists r,
    Permissive.find_loop fuel v k (first_ref cs None) d h = Ret r d h
    /\ ((r = JNull /\ Forall (fun x => strict_eq x v = false) cs.*2)
        \/ exists i x,
             r = JNum (k + Z.of_nat i) /\ cs.*2 !! i = Some x
             /\ strict_eq x v = true
             /\ Forall (fun y => strict_eq y v = false) (take i cs.*2)).
Proof.
  revert p fuel k. induction cs as [|[c vc] cs IH]; intros p fuel k Hseg Hf.
  - exists JNull. split; [by destruct fuel|]. left. by split.
  - destruct fuel as [|fuel]; [simpl in Hf; lia|].
    destruct Hseg as [Hc Hseg]. simpl in Hc, Hseg, Hf.
    destruct (strict_eq vc v) eqn:E.
    + exists (JNum k). split.
      * simpl. mrun. by rewrite E.
      * right. exists O, vc. split_and!; try done.
        by rewrite Z.add_0_r.
    + destruct (IH (Some c) fuel (k + 1) Hseg) as (r & Hrun & Hr); [lia|].
      exists r. split.
      * simpl. mrun. rewrite E. mrun. exact Hrun.
      * destruct Hr as [[-> Hall]|(i & x & -> & Hi & Hx & Hall)].
        -- left. split; [done|]. by constructor.
        -- right. exists (S i), x. split_and!; try done.
           ++ f_equal. lia.
           ++ csimpl. by constructor.
Qed.

Lemma permissive_contains_spec fuel v d h cs vs :
  Rep d h cs vs -> (length vs <= fuel)%nat ->
  Permissive.contains fuel v d h
  = Ret (existsb (fun x => strict_eq x v) vs) d h.
Proof.
  intros HR Hf. destruct vs as [|v0 vs0].
  - apply Rep_nil_inv in HR as (s & _ & _ & _ & H0 & _).
    unfold Permissive.contains. mrun. done.
  - apply Rep_cons_inv in HR as (Hnd & Hseg & Hhd & Htl & Hlen & Hvs).
    unfold Permissive.contains. mrun.
    rewrite eqb_false_of by (simpl in *; lia). mrun.
    rewrite (contains_loop_spec _ _ _ _ _ _ Hseg), Hvs; [done|].
    rewrite <- Hvs, length_fmap in Hf. lia.
Qed.

Lemma existsb_strict_eq v (vs : list jsval) :
  existsb (fun x => strict_eq x v) vs = true
  <-> exists x, x ∈ vs /\ strict_eq x v = true.
Proof.
  rewrite existsb_exists. split.
  - intros (x & Hx & E). exists x. by rewrite list_elem_of_In.
  - intros (x & Hx & E). exists x. by rewrite <- list_elem_of_In.
Qed.

(** X18. [contains(value)] of the second implementation returns [true]
    exactly when some element of the deque is strictly equal to [value]; it
    changes nothing, and on an empty deque it returns [false] for every
    [value], [null] included. *)
Theorem contains_iff_element fuel v d h :
  wf d h = true -> (Z.to_nat (_length d) < fuel)%nat ->
  exists vs b,
    toArray fuel d h = Ret vs d h
    /\ Permissive.contains fuel v d h = Ret b d h
    /\ (b = true <-> exists x, x ∈ vs /\ strict_eq x v = true)
    /\ (_length d = 0 -> b = false).
Proof.
  intros Hwf Hf. apply wf_Rep in Hwf.
  set (cs := chain_of d h) in *. set (vs := elements_of d h) in *.
  pose proof (Rep_length _ _ _ _ Hwf) as Hlen.
  exists vs, (existsb (fun x => strict_eq x v) vs). split_and!.
  - eapply Rep_toArray; [done|lia].
  - eapply permissive_contains_spec; [done|lia].
  - apply existsb_strict_eq.
  - intros H0. destruct vs; [done|]. simpl in Hlen. lia.
Qed.

Lemma contains_iff_element_witness :
  exists vs b,
    toArray 4 sample_deque sample_heap = Ret vs sample_deque sample_heap
    /\ Permissive.contains 4 (JNum 2) sample_deque sample_heap
       = Ret b sample_deque sample_heap
    /\ (b = true <-> exists x, x ∈ vs /\ strict_eq x (JNum 2) = true)
    /\ (_length sample_deque = 0 -> b = false).
Proof.
  apply (contains_iff_element 4 (JNum 2) sample_deque sample_heap).
  - vm_compute. reflexivity.
  - vm_compute. lia.
Defined.

(** X19. [find(value)] of the second implementation returns the position of
    the first element strictly equal to [value], and [null] when there is
    none (so always on an empty deque); it changes nothing.  The position it
    returns is one [at] accepts, where [at] returns that element, and
    [find] differs from [null] exactly when [contains(value)] is [true]. *)
Theorem find_first_match fuel v d h :
  wf d h = true -> (Z.to_nat (_length d) < fuel)%nat ->
  exists vs r b,
    toArray fuel d h = Ret vs d h
    /\ Permissive.find fuel v d h = Ret r d h
    /\ ((r = JNull /\ forall x, x ∈ vs -> strict_eq x v = false)
        \/ exists i x,
             r = JNum (Z.of_nat i) /\ vs !! i = Some x
             /\ strict_eq x v = true
             /\ (forall j y, (j < i)%nat -> vs !! j = Some y ->
                   strict_eq y v = false)
             /\ Permissive.at_ fuel (Z.of_nat i) d h = Ret x d h)
    /\ Permissive.contains fuel v d h = Ret b d h
    /\ (b = true <-> r <> JNull).
Proof.
  intros Hwf Hf. apply wf_Rep in Hwf.
  set (cs := chain_of d h) in *. set (vs := elements_of d h) in *.
  pose proof (Rep_length _ _ _ _ Hwf) as Hlen.
  assert (toArray fuel d h = Ret vs d h) as Harr0
    by (eapply Rep_toArray; [done|lia]).
  assert (Permissive.contains fuel v d h
          = Ret (existsb (fun x => strict_eq x v) vs) d h) as Hc
    by (eapply permissive_contains_spec; [done|lia]).
  pose proof (existsb_strict_eq v vs) as Hb.
  set (b := existsb (fun x => strict_eq x v) vs) in *.
  assert (exists r,
    Permissive.find fuel v d h = Ret r d h
    /\ ((r = JNull /\ Forall (fun x => strict_eq x v = false) vs)
        \/ exists i x,
             r = JNum (Z.of_nat i) /\ vs !! i = Some x
             /\ strict_eq x v = true
             /\ Forall (fun y => strict_eq y v = false) (take i vs)))
    as (r & Hrun & Hr).
  { destruct vs as [|v0 vs0] eqn:Evs.
    - apply Rep_nil_inv in Hwf as (s & _ & _ & _ & H0 & _).
      exists JNull. split; [unfold Permissive.find; mrun; done|].
      left. by split.
    - pose proof Hwf as HR.
      apply Rep_cons_inv in HR as (Hnd & Hseg & Hhd & Htl & _ & Hvs).
      destruct (find_loop_spec _ _ _ fuel v 0 d Hseg) as (r & Hrun & Hr).
      { rewrite <- Hvs, length_fmap in Hlen. lia. }
      rewrite Hvs in Hr. exists r. split; [|done].
      unfold Permissive.find. mrun.
      rewrite eqb_false_of by (simpl in *; lia). mrun. exact Hrun. }
  exists vs, r, b. split_and!; try done.
  - destruct Hr as [[-> Hall]|(i & x & -> & Hi & Hx & Hall)].
    + left. split; [done|]. intros x Hx.
      rewrite Forall_forall in Hall. by apply Hall.
    + right. exists i, x. split_and!; try done.
      * intros j y Hj Hy. rewrite Forall_forall in Hall. apply Hall.
        apply list_elem_of_lookup. exists j. by rewrite lookup_take_lt.
      * apply list_elem_of_split_length in Hi as (xs & ys & E & ->).
        rewrite E in Hwf, Hlen. eapply permissive_at_spec; [done|lia].
  - rewrite Hb. destruct Hr as [[-> Hall]|(i & x & -> & Hi & Hx & Hall)].
    + split; [|done]. intros (x & Hx & E).
      rewrite Forall_forall in Hall. rewrite (Hall x Hx) in E. done.
    + split; [done|]. intros _. exists x. split; [|done].
      apply list_elem_of_lookup. eauto.
Qed.

Lemma find_first_match_witness :
  exists vs r b,
    toArray 4 sample_deque sample_heap = Ret vs sample_deque sample_heap
    /\ Permissive.find 4 (JNum 3) sample_deque sample_heap
       = Ret r sample_deque sample_heap
    /\ ((r = JNull /\ forall x, x ∈ vs -> strict_eq x (JNum 3) = false)
        \/ exists i x,
             r = JNum (Z.of_nat i) /\ vs !! i = Some x
             /\ strict_eq x (JNum 3) = true
             /\ (forall j y, (j < i)%nat -> vs !! j = Some y ->
                   strict_eq y (JNum 3) = false)
             /\ Permissive.at_ 4 (Z.of_nat i) sample_deque sample_heap
                = Ret x sample_deque sample_heap)
    /\ Permissive.contains 4 (JNum 3) sample_deque sample_heap
       = Ret b sample_deque sample_heap
    /\ (b = true <-> r <> JNull).
Proof.
  apply (find_first_match 4 (JNum 3) sample_deque sample_heap).
  - vm_compute. reflexivity.
  - vm_compute. lia.
Defined.

Lemma string_app_assoc (a b c : string) :
  ((a +:+ b) +:+ c = a +:+ (b +:+ c))%string.
Proof.
  induction a as [|ch a IH]; [reflexivity|].
  change (String ch ((a +:+ b) +:+ c) = String ch (a +:+ (b +:+ c))).
  by f_equal.
Qed.

Lemma concat_cons (a : string) (rest : list string) :
  rest <> [] -> String.concat "" (a :: rest) = (a +:+ String.concat "" rest)%string.
Proof. destruct rest; [done|]. reflexivity. Qed.

Lemma concat_segments to_str (vs : list jsval) :
  String.concat ""
    (flat_map (fun v => [("( " +:+ to_str v +:+ " )")%string; " -> "%string]) vs
     ++ ["null"%string])
  = render to_str vs.
Proof.
  induction vs as [|v vs IH]; [reflexivity|].
  change (String.concat ""
            (("( " +:+ to_str v +:+ " )")%string
             :: " -> "%string
             :: (flat_map
                   (fun v => [("( " +:+ to_str v +:+ " )")%string;
                              " -> "%string]) vs ++ ["null"%string]))
          = ("( " +:+ to_str v +:+ " )" +:+ " -> " +:+ render to_str vs)%string).
  rewrite concat_cons by done.
  rewrite concat_cons by (by destruct (flat_map _ vs)).
  rewrite IH, !string_app_assoc. done.
Qed.

Lemma toString_loop_spec to_str h p cs fuel acc d :
  dlseg h p cs None -> (length cs <= fuel)%nat ->
  toString_loop to_str fuel (first_ref cs None) acc d h
  = Ret (acc ++ flat_map
                  (fun v => [("( " +:+ to_str v +:+ " )")%string;
                             " -> "%string]) cs.*2) d h.
Proof.
  revert p fuel acc. induction cs as [|[c vc] cs IH]; intros p fuel acc Hseg Hf.
  - destruct fuel; simpl; by rewrite app_nil_r.
  - destruct fuel as [|fuel]; [simpl in Hf; lia|].
    destruct Hseg as [Hc Hseg]. simpl in Hc, Hseg, Hf. simpl. mrun.
    rewrite (IH (Some c)); [|done|lia].
    by rewrite <- !app_assoc.
Qed.

(** X20. [toString()] renders the elements head to tail as
    [( v1 ) -> ( v2 ) -> ... -> null], each element converted as a template
    literal converts it, and an empty deque as [null]; it changes
    nothing. *)
Theorem toString_renders to_str fuel d h :
  wf d h = true -> (Z.to_nat (_length d) < fuel)%nat ->
  exists vs,
    toArray fuel d h = Ret vs d h
    /\ toString to_str fuel d h = Ret (render to_str vs) d h
    /\ (_length d = 0 -> toString to_str fuel d h = Ret "null"%string d h).
Proof.
  intros Hwf Hf. apply wf_Rep in Hwf.
  set (cs := chain_of d h) in *. set (vs := elements_of d h) in *.
  pose proof (Rep_length _ _ _ _ Hwf) as Hlen.
  assert (toString to_str fuel d h = Ret (render to_str vs) d h) as Hrun.
  { destruct vs as [|v0 vs0] eqn:Evs.
    - apply Rep_nil_inv in Hwf as (s & _ & _ & _ & H0 & _).
      unfold toString. mrun. done.
    - apply Rep_cons_inv in Hwf as (Hnd & Hseg & Hhd & Htl & _ & Hvs).
      unfold toString. mrun.
      rewrite eqb_false_of by (simpl in *; lia). mrun.
      rewrite (toString_loop_spec _ _ _ _ _ _ _ Hseg).
      + rewrite app_nil_l, concat_segments. by rewrite Hvs.
      + rewrite <- Hvs, length_fmap in Hlen. lia. }
  exists vs. split_and!; try done.
  - eapply Rep_toArray; [done|lia].
  - intros H0. rewrite Hrun. destruct vs; [done|]. simpl in Hlen. lia.
Qed.

Lemma toString_renders_witness :
  exists vs,
    toArray 4 sample_deque sample_heap = Ret vs sample_deque sample_heap
    /\ toString (fun v => match v with JNum 1 => "1" | JNum 2 => "2"
                                     | _ => "3" end)%string
         4 sample_deque sample_heap
       = Ret (render (fun v => match v with JNum 1 => "1" | JNum 2 => "2"
                                          | _ => "3" end)%string vs)
           sample_deque sample_heap
    /\ (_length sample_deque = 0 ->
        toString (fun v => match v with JNum 1 => "1" | JNum 2 => "2"
                                      | _ => "3" end)%string
          4 sample_deque sample_heap
        = Ret "null"%string sample_deque sample_heap).
Proof.
  apply (toString_renders
           (fun v => match v with JNum 1 => "1" | JNum 2 => "2"
                             | _ => "3" end)%string
           4 sample_deque sample_heap).
  - vm_compute. reflexivity.
  - vm_compute. lia.
Defined.

(** ** Ownership *)

(** X21. Deques built by separate constructor calls in one store share no
    node: after [a = new Deque(xs)] and [b = new Deque(ys)], whatever
    operations run on [b] (exceptions caught), [a] stays a well-formed deque
    and [a.toArray()] stays what the constructor made it ([xs], with every
    [undefined] after the first element stored as [null]). *)
Theorem separate_deques_independent fuel xs ys os d0 h0 :
  (length xs < fuel)%nat -> (length ys + length os < fuel)%nat ->
  exists a h1 b h2 b' h3,
    new_Deque xs d0 h0 = Ret a d0 h1
    /\ toArray fuel a h1 = Ret (pushed xs) a h1
    /\ new_Deque ys d0 h1 = Ret b d0 h2
    /\ (forall l, l ∈ (chain_of a h2).*1 -> l ∉ (chain_of b h2).*1)
    /\ run_ops fuel os b h2 = Ret tt b' h3
    /\ toArray fuel a h3 = Ret (pushed xs) a h3
    /\ wf a h3 = true.
Proof.
  intros Hfx Hfy.
  destruct (new_Deque_spec xs d0 h0) as (a & h1 & csa & Hna & HRa & _).
  destruct (new_Deque_spec ys d0 h1) as (b & h2 & csb & Hnb & HRb & Hevb).
  assert (Rep a h2 csa (pushed xs)) as HRa2.
  { eapply Rep_agree; [exact HRa|]. intros l Hl. apply Hevb; [set_solver|].
    by eapply Rep_alloc. }
  assert (forall l, l ∈ csa.*1 -> l ∉ csb.*1) as Hdisj.
  { intros l Hl Hl'. apply Hevb in Hl' as [Hl'|Hl']; [set_solver|].
    apply (Rep_alloc _ _ _ _ _ HRa) in Hl. rewrite Hl' in Hl. by destruct Hl. }
  destruct (run_ops_frame os fuel b h2 csb (pushed ys) a csa (pushed xs))
    as (b' & h3 & csb' & ys' & Hops & _ & HRa3 & _); try done.
  { rewrite pushed_length. lia. }
  destruct (Rep_chain _ _ _ _ HRa2) as [Hca _].
  destruct (Rep_chain _ _ _ _ HRb) as [Hcb _].
  exists a, h1, b, h2, b', h3. split_and!; try done.
  - eapply toArray_spec; [done|]. rewrite pushed_length. lia.
  - rewrite Hca, Hcb. done.
  - eapply toArray_spec; [done|]. rewrite pushed_length. lia.
  - by eapply Rep_wf.
Qed.

Lemma separate_deques_independent_witness :
  exists a h1 b h2 b' h3,
    new_Deque [JNum 1; JNum 2] sample_deque sample_heap
    = Ret a sample_deque h1
    /\ toArray 5 a h1 = Ret (pushed [JNum 1; JNum 2]) a h1
    /\ new_Deque [JNum 3] sample_deque h1 = Ret b sample_deque h2
    /\ (forall l, l ∈ (chain_of a h2).*1 -> l ∉ (chain_of b h2).*1)
    /\ run_ops 5 [OpPush (JNum 4); OpReverse; OpClear] b h2 = Ret tt b' h3
    /\ toArray 5 a h3 = Ret (pushed [JNum 1; JNum 2]) a h3
    /\ wf a h3 = true.
Proof.
  apply (separate_deques_independent 5 [JNum 1; JNum 2] [JNum 3]
           [OpPush (JNum 4); OpReverse; OpClear] sample_deque sample_heap).
  - simpl. lia.
  - simpl. lia.
Defined.
